(** * Sparse PCA simulation: data generator, recovery metric and optimisers

    The notebook [Sparse PCA.ipynb] builds a sparse indicator vector, a
    covariance matrix [S], a data matrix [X = Z @ S], and then runs four
    gradient-descent factorisations and one normalised gradient-ascent
    (Hadamard parametrisation) while recording the sine error and the l1 norm
    of the recovered vector.

    Modelling conventions.
    - The Python scalars [p], [n], [epochs] and the loop index are naturals
      ([nat], or [N] for the epoch counters, which reach 200000).
    - The loop of the data generator is modelled twice.  [sparse_vector_b64]
      is the loop as Python runs it: [p * sparsity] is a binary64 product,
      rounded to nearest-even, on [spec_float], the executable IEEE-754
      specification of the library.  [sparse_vector] is its exact-arithmetic
      reading, with a rational [sparsity] and an exact product; the two differ
      when rounding moves the product across an integer.
    - Tensors are two-dimensional arrays of real numbers, read as entry
      functions [i j |-> A[i][j]]; the shape is given by the globals [n] and
      [p] of the notebook wherever an operation needs it (a sum, a product of
      matrices, a norm).  Arithmetic on entries is exact: statements about
      tensors are statements in exact arithmetic, and the float32/float64
      values of a run differ from them by rounding.  Where rounding changes
      the outcome itself, the computation is also modelled on floats
      ([sine_error_float]).
    - A division by zero and a fractional power of a negative number do not
      raise in torch: they silently produce [inf]/[nan] entries.  Such a
      non-finite result is modelled by [None]; it propagates, and the loops go
      on. *)

From Stdlib Require Import List Arith ZArith NArith QArith Qround.
From Stdlib Require Import Reals Qreals Lra Lia Psatz FunctionalExtensionality.
From Stdlib Require Import Floats.SpecFloat.
Import ListNotations.

(** ** Data generator (cell 39514e94) *)

Definition Qltb (x y : Q) : bool :=
  match Qcompare x y with Lt => true | _ => false end.

Definition Q_of_nat (k : nat) : Q := inject_Z (Z.of_nat k).

(** [sparse_vector = np.empty((p, 1)); for i in range(p): ...] in exact
    arithmetic: the single column of the array, as the list of its [p] rows,
    with the product [p * sparsity] not rounded. *)
Definition sparse_vector (p : nat) (sparsity : Q) : list Q :=
  map (fun i : nat =>
         if Qltb (Q_of_nat i) (Q_of_nat p * sparsity) then 1%Q else 0%Q)
      (seq 0 p).

(** Number of entries of a column that are equal to 1. *)
Definition count_ones (l : list Q) : nat :=
  length (filter (fun x => Qeq_bool x 1) l).

(** The loop as it runs, on binary64: [p * sparsity] converts [p] to a float
    and rounds the product to nearest-even; [i < x] compares the integer [i]
    with the float [x] (exactly, as [i] is below 2^53 here). *)
Definition b64_of_nat (k : nat) : spec_float :=
  binary_normalize 53 1024 (Z.of_nat k) 0 false.

Definition b64_one : spec_float := b64_of_nat 1.
Definition b64_zero : spec_float := b64_of_nat 0.

Definition sparse_vector_b64 (p : nat) (sparsity : spec_float) : list spec_float :=
  map (fun i : nat =>
         if SFltb (b64_of_nat i) (SFmul 53 1024 (b64_of_nat p) sparsity)
         then b64_one else b64_zero)
      (seq 0 p).

(** The literals [0.3] and [0.5] of binary64. *)
Definition b64_0_3 : spec_float := S754_finite false 5404319552844595 (-54).
Definition b64_0_5 : spec_float := S754_finite false 4503599627370496 (-53).
(** The literal [0.1] of binary64. *)
Definition b64_0_1 : spec_float := S754_finite false 7205759403792794 (-56).

(** ** The sine error on floats (cells a498f210 to ed9f3ff5)

    [recovered] is a float32 tensor (the parameters come from [torch.randn]),
    [sparse_vector] a float64 one (it comes from numpy).  Their product and
    its sum are float64; [torch.norm(recovered)] is a float32 scalar,
    promoted to float64 when it is multiplied by the float64 norm of the
    signal; the quotient, the square, the difference and the power 0.5 (a
    square root) are float64.  Sums are accumulated in index order; torch
    does not fix the order, and the vectors evaluated below have two entries,
    whose sums are exact in any order. *)

Definition f32_of_nat (k : nat) : spec_float :=
  binary_normalize 24 128 (Z.of_nat k) 0 false.

(** Promotion of a float32 to float64: the same number, with a mantissa of
    53 bits. *)
Definition f32_to_f64 (x : spec_float) : spec_float :=
  match x with
  | S754_finite s m e =>
      binary_normalize 53 1024 (if s then Zneg m else Zpos m) e s
  | _ => x
  end.

Definition sum_f32 (l : list spec_float) : spec_float :=
  fold_left (SFadd 24 128) l (S754_zero false).

Definition sum_f64 (l : list spec_float) : spec_float :=
  fold_left (SFadd 53 1024) l (S754_zero false).

Definition norm_f32 (x : list spec_float) : spec_float :=
  SFsqrt 24 128 (sum_f32 (map (fun a => SFmul 24 128 a a) x)).

Definition norm_f64 (x : list spec_float) : spec_float :=
  SFsqrt 53 1024 (sum_f64 (map (fun a => SFmul 53 1024 a a) x)).

(** [recovered * sparse_vector], entry by entry, in float64. *)
Fixpoint mul_promoted (recovered sparse_vector : list spec_float) : list spec_float :=
  match recovered, sparse_vector with
  | r :: recovered', s :: sparse_vector' =>
      SFmul 53 1024 (f32_to_f64 r) s :: mul_promoted recovered' sparse_vector'
  | _, _ => []
  end.

Definition cosine_error_float (recovered sparse_vector : list spec_float) : spec_float :=
  SFdiv 53 1024 (sum_f64 (mul_promoted recovered sparse_vector))
        (SFmul 53 1024 (f32_to_f64 (norm_f32 recovered)) (norm_f64 sparse_vector)).

Definition sine_error_float (recovered sparse_vector : list spec_float) : spec_float :=
  let c := cosine_error_float recovered sparse_vector in
  SFsqrt 53 1024 (SFsub 53 1024 b64_one (SFmul 53 1024 c c)).

(** [c * recovered] for a float32 scalar [c]. *)
Definition scal_f32 (c : spec_float) (recovered : list spec_float) : list spec_float :=
  map (SFmul 24 128 c) recovered.

(** ** Tensors *)

Open Scope R_scope.

Definition tensor := nat -> nat -> R.

(** Sum of [f 0 .. f (k-1)]. *)
Fixpoint sum_upto (k : nat) (f : nat -> R) : R :=
  match k with
  | O => 0
  | Datatypes.S k' => sum_upto k' f + f k'
  end.

Definition zeros : tensor := fun _ _ => 0.
Definition identity : tensor := fun i j => if Nat.eqb i j then 1 else 0.
Definition tadd (A B : tensor) : tensor := fun i j => A i j + B i j.
Definition tsub (A B : tensor) : tensor := fun i j => A i j - B i j.
(** Elementwise product, Python's [A * B]. *)
Definition tmul (A B : tensor) : tensor := fun i j => A i j * B i j.
(** Scalar times tensor, [c * A], and tensor times scalar, [A * c]. *)
Definition scal (c : R) (A : tensor) : tensor := fun i j => c * A i j.
Definition tscale (A : tensor) (c : R) : tensor := fun i j => A i j * c.
Definition transpose (A : tensor) : tensor := fun i j => A j i.
(** [A @ B] where [k] is the number of columns of [A] (and rows of [B]). *)
Definition matmul (k : nat) (A B : tensor) : tensor :=
  fun i j => sum_upto k (fun l => A i l * B l j).
(** [torch.sum] of a tensor of shape [(r, c)]. *)
Definition tsum (r c : nat) (A : tensor) : R :=
  sum_upto r (fun i => sum_upto c (fun j => A i j)).
(** [torch.norm]: the square root of the sum of the squared entries. *)
Definition tnorm (r c : nat) (A : tensor) : R := sqrt (tsum r c (tmul A A)).
(** [torch.linalg.norm(A, ord=1)] of a column of [r] rows: the sum of the
    absolute values of its only column. *)
Definition tnorm1 (r : nat) (A : tensor) : R :=
  sum_upto r (fun i => Rabs (A i O)).

(** [x / y] on scalars: non-finite when the denominator is zero. *)
Definition div_opt (x y : R) : option R :=
  if Req_dec_T y 0 then None else Some (x / y).

(** [x ** 0.5]: [nan] on a negative base. *)
Definition pow_half (x : R) : option R :=
  if Rlt_dec x 0 then None else Some (sqrt x).

(** [A / d] for a scalar [d] and a tensor with at least one entry, as all
    tensors of the notebook are: every entry is divided by [d]. *)
Definition tdiv (A : tensor) (d : R) : option tensor :=
  if Req_dec_T d 0 then None else Some (fun i j => A i j / d).

Definition obind {A B : Type} (o : option A) (f : A -> option B) : option B :=
  match o with Some a => f a | None => None end.

Notation "x <- e ;; k" := (obind e (fun x => k))
  (at level 61, e at next level, right associativity).

(** [torch.from_numpy] of a column given by its rows. *)
Definition from_numpy (col : list Q) : tensor :=
  fun i j => match j with O => Q2R (nth i col 0%Q) | _ => 0 end.

(** Pointwise equality on the entries of a shape [(r, c)]. *)
Definition teq (r c : nat) (A B : tensor) : Prop :=
  forall i j, (i < r)%nat -> (j < c)%nat -> A i j = B i j.

Section Simulation.

(** The globals [p] (features) and [n] (samples). *)
Variables (n p : nat).

(** [S = alpha * sparse_vector @ sparse_vector.T + beta * np.identity(p)];
    [*] and [@] associate to the left. *)
Definition covariance_S (alpha beta : R) (sparse_vector : tensor) : tensor :=
  tadd (matmul 1 (scal alpha sparse_vector) (transpose sparse_vector))
       (scal beta identity).

(** [X = Z @ S]. *)
Definition data_X (Z S : tensor) : tensor := matmul p Z S.

(** *** Recovery metrics *)

Definition cosine_error (recovered sparse_vector : tensor) : option R :=
  div_opt (tsum p 1 (tmul recovered sparse_vector))
          (tnorm p 1 recovered * tnorm p 1 sparse_vector).

(** [sine_error = (1 - cosine_error ** 2) ** 0.5]. *)
Definition sine_error (recovered sparse_vector : tensor) : option R :=
  c <- cosine_error recovered sparse_vector ;;
  pow_half (1 - c ^ 2).

(** *** The four objectives *)

Definition objective_function_1 (X u v w : tensor) : R :=
  let A := tsub X (matmul 1 u (transpose (tmul v w))) in
  tsum n p (tmul A A).

Definition objective_function_2 (X u v w : tensor) : R :=
  let A := tsub X (matmul 1 (matmul p X u) (transpose (tmul v w))) in
  tsum n p (tmul A A).

Definition objective_function_3 (X u v w : tensor) : R :=
  let A := tsub X (matmul 1 u (transpose (tsub (tmul v v) (tmul w w)))) in
  tsum n p (tmul A A).

Definition objective_function_4 (X u v w : tensor) : R :=
  let A := tsub X (matmul 1 (matmul p X u)
                          (transpose (tsub (tmul v v) (tmul w w)))) in
  tsum n p (tmul A A).

Inductive method := Method1 | Method2 | Method3 | Method4.

Definition objective_function (m : method) : tensor -> tensor -> tensor -> tensor -> R :=
  match m with
  | Method1 => objective_function_1
  | Method2 => objective_function_2
  | Method3 => objective_function_3
  | Method4 => objective_function_4
  end.

(** Rows of [u]: [torch.randn(n, 1)] in methods 1 and 3, [torch.randn(p, 1)]
    in methods 2 and 4. *)
Definition u_rows (m : method) : nat :=
  match m with Method1 | Method3 => n | Method2 | Method4 => p end.

(** [recovered = v * w] (methods 1, 2) or [v * v - w * w] (methods 3, 4). *)
Definition recovered_of (m : method) (v w : tensor) : tensor :=
  match m with
  | Method1 | Method2 => tmul v w
  | Method3 | Method4 => tsub (tmul v v) (tmul w w)
  end.

Definition epochs_of (m : method) : N :=
  match m with Method1 | Method3 => 10000 | Method2 | Method4 => 100000 end%N.

Definition step_size_of (m : method) : R :=
  match m with Method1 | Method3 => 1 / 10000 | Method2 | Method4 => 5 / 10000000 end.

Definition log_period (m : method) : N :=
  match m with Method1 | Method3 => 100 | Method2 | Method4 => 1000 end%N.

(** *** Reverse-mode differentiation

    Modelled from the contract of [Tensor.backward()] of torch, which is
    not part of the notebook: it adds to the [.grad] of every leaf the
    derivative of the scalar with respect to that leaf, obtained by
    propagating adjoints backwards through the operations of the objective.
    With [a] the left factor ([u] or [X @ u]), [r] the recovered vector and
    [A = X - a @ r.T], the adjoint of [A] is [2 * A], that of [a] is
    [-(2 * A) @ r] and that of [r] is [-(2 * A).T @ a]. *)

Definition adjoint_left (X a r : tensor) : tensor :=
  let A := tsub X (matmul 1 a (transpose r)) in
  scal (-1) (matmul p (scal 2 A) r).

Definition adjoint_right (X a r : tensor) : tensor :=
  let A := tsub X (matmul 1 a (transpose r)) in
  scal (-1) (matmul n (transpose (scal 2 A)) a).

Definition left_factor (m : method) (X u : tensor) : tensor :=
  match m with Method1 | Method3 => u | Method2 | Method4 => matmul p X u end.

Record gradients := { d_u : tensor; d_v : tensor; d_w : tensor }.

Definition gradient (m : method) (X u v w : tensor) : gradients :=
  let a := left_factor m X u in
  let r := recovered_of m v w in
  let ga := adjoint_left X a r in
  let gr := adjoint_right X a r in
  {| d_u := match m with
            | Method1 | Method3 => ga
            | Method2 | Method4 => matmul n (transpose X) ga
            end;
     d_v := match m with
            | Method1 | Method2 => tmul gr w
            | Method3 | Method4 => tmul gr (scal 2 v)
            end;
     d_w := match m with
            | Method1 | Method2 => tmul gr v
            | Method3 | Method4 => scal (-1) (tmul gr (scal 2 w))
            end |}.

(** [t |-> u] with entry [[k][0]] replaced by [t]: the line through [u]
    along coordinate [k]. *)
Definition along (u : tensor) (k : nat) (t : R) : tensor :=
  fun i j => if (Nat.eqb i k && Nat.eqb j 0)%bool then t else u i j.

(** [g] holds the partial derivatives of a scalar function [f] of a column
    of [rows] entries at [u]. *)
Definition is_gradient (rows : nat) (f : tensor -> R) (u g : tensor) : Prop :=
  forall k, (k < rows)%nat ->
    derivable_pt_lim (fun t => f (along u k t)) (u k O) (g k O).

(** *** Gradient-descent loops (cells a498f210, d2ddb240, 9874a1ba, e879801e) *)

Record gd_state := {
  gd_u : tensor; gd_v : tensor; gd_w : tensor;
  u_grad : tensor; v_grad : tensor; w_grad : tensor;
  sine_errors : list (option R);
  l1 : list R;
  printed : list (N * R)
}.

(** Everything before the [for]: empty traces, then the metrics of the
    initial parameters.  A leaf that has never been differentiated has no
    [.grad]; the first [backward()] stores the gradient there, as if it had
    been zero. *)
Definition gd_init (m : method) (sparse_vector u v w : tensor) : gd_state :=
  let recovered := recovered_of m v w in
  {| gd_u := u; gd_v := v; gd_w := w;
     u_grad := zeros; v_grad := zeros; w_grad := zeros;
     sine_errors := [] ++ [sine_error recovered sparse_vector];
     l1 := [] ++ [tnorm1 p recovered];
     printed := [] |}.

(** [objective.backward()]. *)
Definition backward (m : method) (X : tensor) (st : gd_state) : gd_state :=
  let g := gradient m X (gd_u st) (gd_v st) (gd_w st) in
  {| gd_u := gd_u st; gd_v := gd_v st; gd_w := gd_w st;
     u_grad := tadd (u_grad st) (d_u g);
     v_grad := tadd (v_grad st) (d_v g);
     w_grad := tadd (w_grad st) (d_w g);
     sine_errors := sine_errors st; l1 := l1 st; printed := printed st |}.

(** The [with torch.no_grad():] block. *)
Definition update (step_size : R) (st : gd_state) : gd_state :=
  {| gd_u := tsub (gd_u st) (tscale (u_grad st) step_size);
     gd_v := tsub (gd_v st) (tscale (v_grad st) step_size);
     gd_w := tsub (gd_w st) (tscale (w_grad st) step_size);
     u_grad := zeros; v_grad := zeros; w_grad := zeros;
     sine_errors := sine_errors st; l1 := l1 st; printed := printed st |}.

Definition print_loss (m : method) (X : tensor) (i : N) (st : gd_state) : gd_state :=
  {| gd_u := gd_u st; gd_v := gd_v st; gd_w := gd_w st;
     u_grad := u_grad st; v_grad := v_grad st; w_grad := w_grad st;
     sine_errors := sine_errors st; l1 := l1 st;
     printed := printed st ++
                [(i, objective_function m X (gd_u st) (gd_v st) (gd_w st))] |}.

Definition record_metrics (m : method) (sparse_vector : tensor) (st : gd_state) : gd_state :=
  let recovered := recovered_of m (gd_v st) (gd_w st) in
  {| gd_u := gd_u st; gd_v := gd_v st; gd_w := gd_w st;
     u_grad := u_grad st;
     (* method 1 ends its body with [v.grad.zero_(); w.grad.zero_()] *)
     v_grad := match m with Method1 => zeros | _ => v_grad st end;
     w_grad := match m with Method1 => zeros | _ => w_grad st end;
     sine_errors := sine_errors st ++ [sine_error recovered sparse_vector];
     l1 := l1 st ++ [tnorm1 p recovered];
     printed := printed st |}.

(** One pass through the body of [for i in range(epochs)]. *)
Definition gd_iteration (m : method) (X sparse_vector : tensor) (step_size : R)
           (i : N) (st : gd_state) : gd_state :=
  let st := if (N.modulo i (log_period m) =? 0)%N then print_loss m X i st else st in
  let st := backward m X st in
  let st := update step_size st in
  record_metrics m sparse_vector st.

(** [for i in range(epochs)]: the index and the state after [k] passes. *)
Definition gd_loop (m : method) (X sparse_vector : tensor) (step_size : R)
           (k : N) (st : gd_state) : N * gd_state :=
  N.iter k (fun c => (N.succ (fst c),
                      gd_iteration m X sparse_vector step_size (fst c) (snd c)))
         (0%N, st).

(** The whole cell, with the final [print] after the loop. *)
Definition gd_run (m : method) (X sparse_vector : tensor) (epochs : N) (step_size : R)
           (u v w : tensor) : gd_state :=
  let st := snd (gd_loop m X sparse_vector step_size epochs
                         (gd_init m sparse_vector u v w)) in
  print_loss m X epochs st.

(** *** Hadamard parametrisation (cells ce805a1c, ed9f3ff5) *)

(** [norm = torch.norm(u * v); u = u / (norm ** 0.5); v = v / (norm ** 0.5)]. *)
Definition renormalize (u v : tensor) : option (tensor * tensor) :=
  let norm := tnorm p 1 (tmul u v) in
  d <- pow_half norm ;;
  u' <- tdiv u d ;;
  v' <- tdiv v d ;;
  Some (u', v').

(** The gradient-ascent step on finite [u], [v], up to the renormalisation. *)
Definition ascent (S : tensor) (step_size : R) (u v : tensor) : tensor * tensor :=
  let du := tmul v (matmul p (tadd S (transpose S)) (tmul u v)) in
  let dv := tmul u (matmul p (tadd S (transpose S)) (tmul u v)) in
  (tadd u (tscale du step_size), tadd v (tscale dv step_size)).

Definition hadamard_step (S : tensor) (step_size : R) (u v : tensor)
  : option (tensor * tensor) :=
  let uv := ascent S step_size u v in
  renormalize (fst uv) (snd uv).

(** [(u * v).T @ S @ (u * v)], entry [[0][0]]. *)
Definition hadamard_objective (S u v : tensor) : R :=
  matmul p (matmul p (transpose (tmul u v)) S) (tmul u v) O O.

Record hd_state := {
  hd_uv : option (tensor * tensor);
  hd_sine_errors : list (option R);
  hd_l1 : list (option R);
  hd_printed : list (N * option R)
}.

Definition hd_metrics (sparse_vector : tensor) (uv : option (tensor * tensor))
  : option R * option R :=
  match uv with
  | Some (u, v) =>
      let recovered := tmul u v in
      (sine_error recovered sparse_vector, Some (tnorm1 p recovered))
  | None => (None, None)
  end.

Definition hd_objective (S : tensor) (uv : option (tensor * tensor)) : option R :=
  match uv with Some (u, v) => Some (hadamard_objective S u v) | None => None end.

Definition hd_init (sparse_vector u v : tensor) : hd_state :=
  let uv := renormalize u v in
  let ms := hd_metrics sparse_vector uv in
  {| hd_uv := uv;
     hd_sine_errors := [] ++ [fst ms];
     hd_l1 := [] ++ [snd ms];
     hd_printed := [] |}.

Definition hd_iteration (S sparse_vector : tensor) (step_size : R)
           (i : N) (st : hd_state) : hd_state :=
  let out := if (N.modulo i 1000 =? 0)%N
             then hd_printed st ++ [(i, hd_objective S (hd_uv st))]
             else hd_printed st in
  let uv := match hd_uv st with
            | Some (u, v) => hadamard_step S step_size u v
            | None => None
            end in
  let ms := hd_metrics sparse_vector uv in
  {| hd_uv := uv;
     hd_sine_errors := hd_sine_errors st ++ [fst ms];
     hd_l1 := hd_l1 st ++ [snd ms];
     hd_printed := out |}.

Definition hd_loop (S sparse_vector : tensor) (step_size : R)
           (k : N) (st : hd_state) : N * hd_state :=
  N.iter k (fun c => (N.succ (fst c),
                      hd_iteration S sparse_vector step_size (fst c) (snd c)))
         (0%N, st).

Definition hd_run (S sparse_vector : tensor) (epochs : N) (step_size : R)
           (u v : tensor) : hd_state :=
  let st := snd (hd_loop S sparse_vector step_size epochs
                         (hd_init sparse_vector u v)) in
  {| hd_uv := hd_uv st;
     hd_sine_errors := hd_sine_errors st;
     hd_l1 := hd_l1 st;
     hd_printed := hd_printed st ++ [(epochs, hd_objective S (hd_uv st))] |}.

Definition hd_epochs : N := 200000%N.
Definition hd_step_size : R := 1 / 100000.

End Simulation.

(** ** Notions used in the statements *)

(** Number of leading ones that the loop writes. *)
Definition active_count (p : nat) (sparsity : Q) : nat :=
  Nat.min p (Z.to_nat (Qceiling (Q_of_nat p * sparsity))).

(** A column of [p] rows that has a non-zero entry. *)
Definition nonzero (p : nat) (x : tensor) : Prop :=
  exists i, (i < p)%nat /\ x i O <> 0.

(** Invariant of the Hadamard loop: a finite state has a unit product. *)
Definition unit_product (p : nat) (st : hd_state) : Prop :=
  forall u v, hd_uv st = Some (u, v) -> tnorm p 1 (tmul u v) = 1.

(** The common shape of the four objectives: the squared Frobenius norm of
    [X - a @ r.T] for a column [a] of [n] rows and a column [r] of [p] rows. *)
Definition loss (n p : nat) (X a r : tensor) : R :=
  let A := tsub X (matmul 1 a (transpose r)) in
  tsum n p (tmul A A).

(** All three accumulators are clear. *)
Definition grads_clear (st : gd_state) : Prop :=
  u_grad st = zeros /\ v_grad st = zeros /\ w_grad st = zeros.


(** Lexicographic order on exponent, then mantissa: the order that
    [SFcompare] uses between two positive finite floats. *)
Definition key_lt (m1 : positive) (e1 : Z) (m2 : positive) (e2 : Z) : Prop :=
  (e1 < e2)%Z \/ (e1 = e2 /\ (m1 < m2)%positive).

(** The 53-bit mantissa of the binary64 float of a positive integer below
    2^53. *)
Definition b64_mantissa (m : positive) : positive :=
  fst (shl_align m 0 (Zpos (digits2_pos m) - 53)).

(** [sum(a * b)] for two columns of [p] rows. *)
Definition dot (p : nat) (a b : tensor) : R :=
  sum_upto p (fun i => a i O * b i O).

(** A column of [p] rows whose entries are all zero. *)
Definition zero_col (p : nat) (x : tensor) : Prop :=
  forall i, (i < p)%nat -> x i O = 0.

(** [X] is exactly the rank-one product [a @ r.T] on its [n] by [p] entries. *)
Definition factorised (n p : nat) (X a r : tensor) : Prop :=
  forall i j, (i < n)%nat -> (j < p)%nat -> X i j = a i O * r j O.

(** [range(k)]. *)
Definition N_range (k : N) : list N := map N.of_nat (seq 0 (N.to_nat k)).

(** * Properties *)

(** ** The data generator *)

Lemma Qltb_lt (x y : Q) : Qltb x y = true <-> (x < y)%Q.
Proof.
  unfold Qltb. rewrite Qlt_alt.
  destruct (x ?= y)%Q; split; intro H; congruence.
Qed.

(** An integer is below a rational exactly when it is below its ceiling. *)
Lemma Q_of_nat_lt_ceiling (i : nat) (x : Q) :
  (Q_of_nat i < x)%Q <-> (Z.of_nat i < Qceiling x)%Z.
Proof.
  unfold Q_of_nat. split; intro H.
  - apply Z.lt_nge. intro Hle.
    assert (Hx : (x <= inject_Z (Z.of_nat i))%Q).
    { eapply Qle_trans; [apply Qle_ceiling|]. rewrite <- Zle_Qle. exact Hle. }
    apply (Qlt_irrefl x). eapply Qle_lt_trans; eassumption.
  - eapply Qle_lt_trans; [|apply Qceiling_lt].
    rewrite <- Zle_Qle. lia.
Qed.

(** A threshold test mapped over [a, a+1, ..] is a block of ones and then a
    block of zeros. *)
Lemma map_threshold_seq {A : Type} (one zero : A) (g : nat -> bool) (k : nat) :
  (forall i, g i = true <-> (i < k)%nat) ->
  forall len a,
    map (fun i => if g i then one else zero) (seq a len) =
    repeat one (Nat.min len (k - a)) ++ repeat zero (len - Nat.min len (k - a)).
Proof.
  intros Hg len. induction len as [|len IH]; intro a; simpl.
  - reflexivity.
  - rewrite IH. destruct (g a) eqn:E.
    + apply Hg in E.
      replace (k - a)%nat with (Datatypes.S (k - Datatypes.S a)) by lia.
      reflexivity.
    + assert (Hka : (k <= a)%nat).
      { destruct (le_lt_dec k a) as [Hl|Hl]; [exact Hl|].
        apply Hg in Hl. congruence. }
      replace (k - a)%nat with O by lia.
      replace (k - Datatypes.S a)%nat with O by lia.
      rewrite !Nat.min_0_r. simpl. rewrite Nat.sub_0_r. reflexivity.
Qed.

Lemma count_ones_blocks (a b : nat) :
  count_ones (repeat 1%Q a ++ repeat 0%Q b) = a.
Proof.
  unfold count_ones. rewrite filter_app, length_app.
  assert (H1 : forall a, length (filter (fun x => Qeq_bool x 1) (repeat 1%Q a)) = a).
  { intro k; induction k; simpl; [reflexivity | now rewrite IHk]. }
  assert (H0 : forall b, length (filter (fun x => Qeq_bool x 1) (repeat 0%Q b)) = O).
  { intro k; induction k; simpl; [reflexivity | exact IHk]. }
  rewrite H1, H0. lia.
Qed.

Lemma sparse_vector_blocks (p : nat) (sparsity : Q) :
  sparse_vector p sparsity =
  repeat 1%Q (active_count p sparsity) ++ repeat 0%Q (p - active_count p sparsity).
Proof.
  unfold sparse_vector, active_count.
  rewrite (map_threshold_seq 1%Q 0%Q _
             (Z.to_nat (Qceiling (Q_of_nat p * sparsity)))).
  - rewrite Nat.sub_0_r. reflexivity.
  - intro i. rewrite Qltb_lt, Q_of_nat_lt_ceiling. lia.
Qed.

Lemma sparse_vector_length (p : nat) (sparsity : Q) :
  length (sparse_vector p sparsity) = p.
Proof. unfold sparse_vector. now rewrite length_map, length_seq. Qed.

Lemma sparse_vector_nth (p : nat) (sparsity : Q) (i : nat) :
  (i < p)%nat ->
  nth i (sparse_vector p sparsity) 0%Q =
  if Qltb (Q_of_nat i) (Q_of_nat p * sparsity) then 1%Q else 0%Q.
Proof.
  intro Hi. unfold sparse_vector.
  set (f := fun i : nat =>
              if Qltb (Q_of_nat i) (Q_of_nat p * sparsity) then 1%Q else 0%Q).
  rewrite (nth_indep _ 0%Q (f O)) by now rewrite length_map, length_seq.
  rewrite (map_nth f), seq_nth by exact Hi. reflexivity.
Qed.

(** C1 (as written it fails): with [p = 3] and [sparsity = 1/2] the loop
    writes two ones, at indices 0 and 1, because both are below 1.5, while
    [floor(p * sparsity)] is 1.  The product 3 * 0.5 is exact in binary64 and
    the float loop writes the same two ones. *)
Lemma sparse_vector_floor_counterexample :
  count_ones (sparse_vector 3 (1 # 2)) = 2%nat /\
  Z.to_nat (Qfloor (Q_of_nat 3 * (1 # 2))) = 1%nat /\
  sparse_vector_b64 3 b64_0_5 = [b64_one; b64_one; b64_zero] /\
  ~ (count_ones (sparse_vector 3 (1 # 2)) =
     Z.to_nat (Qfloor (Q_of_nat 3 * (1 # 2)))).
Proof.
  repeat split; try (vm_compute; reflexivity).
  vm_compute. discriminate.
Qed.

(** *** The loop on binary64 *)

Lemma digits2_pos_bounds (m : positive) :
  (2 ^ (Zpos (digits2_pos m) - 1) <= Zpos m < 2 ^ Zpos (digits2_pos m))%Z.
Proof.
  induction m as [m IH|m IH|]; cbn [digits2_pos].
  - rewrite Pos2Z.inj_succ.
    replace (Z.succ (Zpos (digits2_pos m)) - 1)%Z with (Z.succ (Zpos (digits2_pos m) - 1))%Z by lia.
    rewrite !Z.pow_succ_r by lia. lia.
  - rewrite Pos2Z.inj_succ.
    replace (Z.succ (Zpos (digits2_pos m)) - 1)%Z with (Z.succ (Zpos (digits2_pos m) - 1))%Z by lia.
    rewrite !Z.pow_succ_r by lia. lia.
  - simpl. lia.
Qed.

Lemma digits2_pos_mono (a b : positive) :
  (a <= b)%positive -> (digits2_pos a <= digits2_pos b)%positive.
Proof.
  intro H. destruct (Pos.leb_spec (digits2_pos a) (digits2_pos b)) as [L|L]; [exact L|].
  exfalso.
  pose proof (digits2_pos_bounds a) as [Ha _].
  pose proof (digits2_pos_bounds b) as [_ Hb].
  assert (2 ^ Zpos (digits2_pos b) <= 2 ^ (Zpos (digits2_pos a) - 1))%Z
    by (apply Z.pow_le_mono_r; lia).
  lia.
Qed.

Lemma digits2_pos_iter_xO (m k : positive) :
  digits2_pos (Pos.iter xO m k) = (digits2_pos m + k)%positive.
Proof.
  induction k as [|k IH] using Pos.peano_ind.
  - simpl. lia.
  - rewrite Pos.iter_succ. cbn [digits2_pos]. rewrite IH. lia.
Qed.

Lemma iter_xO_value (m k : positive) :
  Zpos (Pos.iter xO m k) = (Zpos m * 2 ^ Zpos k)%Z.
Proof.
  induction k as [|k IH] using Pos.peano_ind.
  - simpl. lia.
  - rewrite Pos.iter_succ, Pos2Z.inj_xO, IH, Pos2Z.inj_succ, Z.pow_succ_r by lia. lia.
Qed.

Lemma b64_mantissa_value (m : positive) :
  (Zpos (digits2_pos m) <= 53)%Z ->
  Zpos (b64_mantissa m) = (Zpos m * 2 ^ (53 - Zpos (digits2_pos m)))%Z /\
  digits2_pos (b64_mantissa m) = 53%positive /\
  shl_align m 0 (Zpos (digits2_pos m) - 53) = (b64_mantissa m, Zpos (digits2_pos m) - 53)%Z.
Proof.
  intro H. unfold b64_mantissa, shl_align.
  destruct (Zpos (digits2_pos m) - 53 - 0)%Z as [|q|q] eqn:E.
  - assert (D : Zpos (digits2_pos m) = 53%Z) by lia.
    cbn [fst]. rewrite D. simpl. repeat split; [lia | congruence].
  - lia.
  - cbn [fst]. rewrite iter_xO_value, digits2_pos_iter_xO.
    replace (53 - Zpos (digits2_pos m))%Z with (Zpos q) by lia.
    repeat split. lia.
Qed.

Lemma binary_round_aux_exact (mz : positive) (ez : Z) :
  digits2_pos mz = 53%positive -> (-52 <= ez <= 0)%Z ->
  binary_round_aux 53 1024 false (Zpos mz) ez loc_Exact = S754_finite false mz ez.
Proof.
  intros D He.
  assert (E : (fexp 53 1024 (Zpos 53 + ez) - ez = 0)%Z) by (unfold fexp, emin; lia).
  unfold binary_round_aux, shr_fexp. cbn [Zdigits2]. rewrite D, E.
  cbn [shr shr_record_of_loc shr_m loc_of_shr_record round_nearest_even Zdigits2].
  rewrite D, E. cbn [shr shr_record_of_loc shr_m].
  destruct (Z.leb_spec ez (1024 - 53)); [reflexivity | lia].
Qed.

Lemma b64_of_pos (m : positive) :
  (Zpos (digits2_pos m) <= 53)%Z ->
  binary_normalize 53 1024 (Zpos m) 0 false =
  S754_finite false (b64_mantissa m) (Zpos (digits2_pos m) - 53).
Proof.
  intro H. destruct (b64_mantissa_value m H) as [_ [D S]].
  cbn [binary_normalize]. unfold binary_round.
  replace (fexp 53 1024 (Zpos (digits2_pos m) + 0)) with (Zpos (digits2_pos m) - 53)%Z
    by (unfold fexp, emin; lia).
  rewrite S. apply binary_round_aux_exact; [exact D | lia].
Qed.

Lemma SFltb_finite_pos (m1 : positive) (e1 : Z) (x : spec_float) :
  SFltb (S754_finite false m1 e1) x = true <->
  x = S754_infinity false \/
  exists m2 e2, x = S754_finite false m2 e2 /\ key_lt m1 e1 m2 e2.
Proof.
  unfold SFltb, SFcompare, key_lt.
  destruct x as [s|[|]| |[|] m2 e2];
    try (split; [discriminate | intros [H|[m [e [H _]]]]; discriminate]).
  - split; [intros _; left; reflexivity | reflexivity].
  - change (PosDef.Pos.compare_cont Eq m1 m2) with (Pos.compare m1 m2).
    destruct (Z.compare_spec e1 e2) as [E|E|E];
      [destruct (Pos.compare_spec m1 m2) as [F|F|F]| |];
      (split;
       [ intro H;
         first [discriminate H | (right; exists m2, e2; split; [reflexivity | lia])]
       | intros [H|[m [e [H K]]]]; [discriminate H|];
         injection H as -> ->; first [reflexivity | (exfalso; lia)] ]).
Qed.

Lemma SFltb_zero (x : spec_float) :
  SFltb (S754_zero false) x = true <->
  x = S754_infinity false \/ exists m2 e2, x = S754_finite false m2 e2.
Proof.
  unfold SFltb, SFcompare.
  destruct x as [s|[|]| |[|] m2 e2];
    try (split; [discriminate | intros [H|[m [e H]]]; discriminate]).
  - split; [intros _; left; reflexivity | reflexivity].
  - split; [intros _; right; exists m2, e2; reflexivity | reflexivity].
Qed.

Lemma b64_of_nat_zero : b64_of_nat 0 = S754_zero false.
Proof. reflexivity. Qed.

Lemma digits2_pos_le_53 (m : positive) :
  (Zpos m < 2 ^ 53)%Z -> (Zpos (digits2_pos m) <= 53)%Z.
Proof.
  intro H. pose proof (digits2_pos_bounds m) as [Hlo _].
  destruct (Z.le_gt_cases (Zpos (digits2_pos m)) 53) as [L|L]; [exact L|].
  exfalso.
  assert (2 ^ 53 <= 2 ^ (Zpos (digits2_pos m) - 1))%Z by (apply Z.pow_le_mono_r; lia).
  lia.
Qed.

(** The float of a positive integer below 2^53. *)
Lemma b64_of_nat_pos (k : nat) :
  (0 < k)%nat -> (Z.of_nat k < 2 ^ 53)%Z ->
  b64_of_nat k =
  S754_finite false (b64_mantissa (Pos.of_nat k))
              (Zpos (digits2_pos (Pos.of_nat k)) - 53).
Proof.
  intros Hk Hb. unfold b64_of_nat.
  assert (E : Z.of_nat k = Zpos (Pos.of_nat k)).
  { destruct k as [|k]; [lia|]. rewrite <- Pos.of_nat_succ. reflexivity. }
  rewrite E. apply b64_of_pos. apply digits2_pos_le_53. lia.
Qed.

(** Conversion is strictly increasing for the order of [SFcompare]. *)
Lemma b64_key_lt (a b : positive) :
  (a < b)%positive -> (Zpos b < 2 ^ 53)%Z ->
  key_lt (b64_mantissa a) (Zpos (digits2_pos a) - 53)
         (b64_mantissa b) (Zpos (digits2_pos b) - 53).
Proof.
  intros Hab Hb.
  assert (Da : (Zpos (digits2_pos a) <= 53)%Z) by (apply digits2_pos_le_53; lia).
  assert (Db : (Zpos (digits2_pos b) <= 53)%Z) by (apply digits2_pos_le_53; lia).
  pose proof (digits2_pos_mono a b ltac:(lia)) as Hd.
  destruct (b64_mantissa_value a Da) as [Va _].
  destruct (b64_mantissa_value b Db) as [Vb _].
  unfold key_lt.
  destruct (Pos.eq_dec (digits2_pos a) (digits2_pos b)) as [E|E].
  - right. split; [lia|].
    rewrite E in Va.
    assert (0 < 2 ^ (53 - Zpos (digits2_pos b)))%Z by (apply Z.pow_pos_nonneg; lia).
    nia.
  - left. lia.
Qed.

Lemma Pos_of_nat_lt (i j : nat) :
  (0 < i)%nat -> (i < j)%nat -> (Pos.of_nat i < Pos.of_nat j)%positive.
Proof. intros Hi Hij. apply Pos2Nat.inj_lt. rewrite !Nat2Pos.id by lia. exact Hij. Qed.

Lemma Zpos_of_nat (k : nat) : (0 < k)%nat -> Zpos (Pos.of_nat k) = Z.of_nat k.
Proof. intro H. destruct k as [|k]; [lia|]. rewrite <- Pos.of_nat_succ. reflexivity. Qed.

Lemma S754_finite_inj (s : bool) (m m' : positive) (e e' : Z) :
  S754_finite s m e = S754_finite s m' e' -> m = m' /\ e = e'.
Proof. intro H. injection H as -> ->. split; reflexivity. Qed.

(** If [j] is below [x] then so is every smaller integer. *)
Lemma b64_ltb_downward (i j : nat) (x : spec_float) :
  (i < j)%nat -> (Z.of_nat j < 2 ^ 53)%Z ->
  SFltb (b64_of_nat j) x = true -> SFltb (b64_of_nat i) x = true.
Proof.
  intros Hij Hj H.
  rewrite (b64_of_nat_pos j) in H by lia.
  apply SFltb_finite_pos in H.
  destruct (Nat.eq_dec i 0) as [->|Hi].
  - rewrite b64_of_nat_zero. apply SFltb_zero.
    destruct H as [H|[m2 [e2 [H _]]]]; [left; exact H | right; exists m2, e2; exact H].
  - rewrite (b64_of_nat_pos i) by lia. apply SFltb_finite_pos.
    destruct H as [H|[m2 [e2 [H K]]]]; [left; exact H|].
    right. exists m2, e2. split; [exact H|].
    assert (L : key_lt (b64_mantissa (Pos.of_nat i)) (Zpos (digits2_pos (Pos.of_nat i)) - 53)
                       (b64_mantissa (Pos.of_nat j)) (Zpos (digits2_pos (Pos.of_nat j)) - 53)).
    { apply b64_key_lt; [apply Pos_of_nat_lt; lia | rewrite Zpos_of_nat; lia]. }
    unfold key_lt in *. lia.
Qed.

(** Between two converted integers, the float comparison is the integer one. *)
Lemma b64_ltb_of_nat (i c : nat) :
  (Z.of_nat i < 2 ^ 53)%Z -> (Z.of_nat c < 2 ^ 53)%Z ->
  SFltb (b64_of_nat i) (b64_of_nat c) = Nat.ltb i c.
Proof.
  intros Hi Hc.
  assert (Hlt : forall a b, (a < b)%nat -> (Z.of_nat b < 2 ^ 53)%Z ->
                            SFltb (b64_of_nat a) (b64_of_nat b) = true).
  { intros a b Hab Hb.
    rewrite (b64_of_nat_pos b) by lia.
    destruct (Nat.eq_dec a 0) as [->|Ha].
    - rewrite b64_of_nat_zero. apply SFltb_zero. right. eexists. eexists. reflexivity.
    - rewrite (b64_of_nat_pos a) by lia. apply SFltb_finite_pos.
      right. eexists. eexists. split; [reflexivity|].
      apply b64_key_lt; [apply Pos_of_nat_lt; lia | rewrite Zpos_of_nat; lia]. }
  destruct (Nat.ltb_spec i c) as [L|L]; [apply Hlt; assumption|].
  destruct (SFltb (b64_of_nat i) (b64_of_nat c)) eqn:E; [|reflexivity].
  exfalso.
  destruct (Nat.eq_dec i c) as [->|Hne].
  - unfold SFltb in E. destruct (Nat.eq_dec c 0) as [->|Hc0].
    + discriminate E.
    + rewrite (b64_of_nat_pos c) in E by lia. cbn [SFcompare] in E.
      rewrite Z.compare_refl in E.
      change (PosDef.Pos.compare_cont Eq) with Pos.compare in E.
      rewrite Pos.compare_refl in E. discriminate E.
  - assert (Hci : (c < i)%nat) by lia.
    pose proof (Hlt c i Hci Hi) as F.
    destruct (Nat.eq_dec c 0) as [->|Hc0].
    + rewrite (b64_of_nat_pos i) in E by lia. discriminate E.
    + rewrite (b64_of_nat_pos i) in E, F by lia.
      rewrite (b64_of_nat_pos c) in E, F by lia.
      apply SFltb_finite_pos in E. apply SFltb_finite_pos in F.
      destruct E as [E|[m [e [E K]]]]; [discriminate E|].
      destruct F as [F|[m' [e' [F K']]]]; [discriminate F|].
      apply S754_finite_inj in E. apply S754_finite_inj in F.
      destruct E as [E1 E2]. destruct F as [F1 F2]. subst m e m' e'.
      unfold key_lt in K, K'. lia.
Qed.

Lemma filter_all {A : Type} (g : A -> bool) (l : list A) :
  (forall x, In x l -> g x = true) -> filter g l = l.
Proof.
  induction l as [|a l IH]; intro H; simpl; [reflexivity|].
  rewrite (H a (or_introl eq_refl)), IH; [reflexivity|].
  intros x Hx. apply H. right. exact Hx.
Qed.

(** A test that holds below every index where it holds, mapped over
    [0 .. p-1], gives a block of ones followed by a block of zeros. *)
Lemma map_downward_seq {A : Type} (one zero : A) (g : nat -> bool) (p : nat) :
  (forall i j, (i < j)%nat -> (j < p)%nat -> g j = true -> g i = true) ->
  map (fun i => if g i then one else zero) (seq 0 p) =
  repeat one (length (filter g (seq 0 p))) ++
  repeat zero (p - length (filter g (seq 0 p))).
Proof.
  induction p as [|p IH]; intro Hd; [reflexivity|].
  rewrite seq_S, map_app, filter_app, IH by (intros i j Hij Hj; apply Hd; lia).
  cbn [Nat.add map filter].
  pose proof (filter_length_le g (seq 0 p)) as Hle. rewrite length_seq in Hle.
  destruct (g p) eqn:E.
  - rewrite (filter_all g (seq 0 p)).
    + rewrite length_app, length_seq. cbn [length].
      replace (p - p)%nat with O by lia.
      replace (Datatypes.S p - (p + 1))%nat with O by lia.
      cbn [repeat]. rewrite !app_nil_r.
      replace (p + 1)%nat with (Datatypes.S p) by lia.
      cbn [repeat]. rewrite repeat_cons. reflexivity.
    + intros x Hx. apply in_seq in Hx. apply (Hd x p); [lia | lia | exact E].
  - rewrite app_nil_r.
    replace (Datatypes.S p - length (filter g (seq 0 p)))%nat
      with (Datatypes.S (p - length (filter g (seq 0 p)))) by lia.
    cbn [repeat]. rewrite repeat_cons, app_assoc. reflexivity.
Qed.

Lemma length_filter_ltb (p c : nat) :
  (c <= p)%nat -> length (filter (fun i => Nat.ltb i c) (seq 0 p)) = c.
Proof.
  induction p as [|p IH]; intro H.
  - replace c with O by lia. reflexivity.
  - rewrite seq_S, filter_app, length_app. cbn [Nat.add filter].
    destruct (Nat.ltb_spec p c) as [L|L].
    + assert (c = Datatypes.S p) by lia. subst c.
      rewrite (filter_all _ (seq 0 p)).
      * rewrite length_seq. simpl. lia.
      * intros x Hx. apply in_seq in Hx. apply Nat.ltb_lt. lia.
    + rewrite IH by lia. simpl. lia.
Qed.

(** C1 (amended): for every [p] below 2^53 and every binary64 [sparsity],
    the signal vector that the loop writes is a block of ones in contiguous
    leading positions followed by a block of zeros, of total length [p];
    entry [i] is 1 exactly when [i] is below the binary64 product
    [p * sparsity]; the number of ones is the number of such indices.  It is
    the product itself whenever the product is an integer between 0 and [p]
    (then it is its floor); otherwise it need not be the floor: 3 * 0.5
    gives two ones. *)
Theorem sparse_vector_b64_leading_ones (p : nat) (sparsity : spec_float) :
  (Z.of_nat p < 2 ^ 53)%Z ->
  let x := SFmul 53 1024 (b64_of_nat p) sparsity in
  let k := length (filter (fun i => SFltb (b64_of_nat i) x) (seq 0 p)) in
  sparse_vector_b64 p sparsity = repeat b64_one k ++ repeat b64_zero (p - k) /\
  (forall i, (i < p)%nat ->
     (nth i (sparse_vector_b64 p sparsity) b64_zero = b64_one <->
      SFltb (b64_of_nat i) x = true) /\
     (nth i (sparse_vector_b64 p sparsity) b64_zero = b64_zero <->
      SFltb (b64_of_nat i) x = false)) /\
  (forall c, (c <= p)%nat -> x = b64_of_nat c -> k = c).
Proof.
  intros Hp x k. split; [|split].
  - unfold sparse_vector_b64. fold x.
    apply (map_downward_seq b64_one b64_zero (fun i => SFltb (b64_of_nat i) x) p).
    intros i j Hij Hj. apply b64_ltb_downward; lia.
  - intros i Hi. unfold sparse_vector_b64. fold x.
    set (f := fun i : nat => if SFltb (b64_of_nat i) x then b64_one else b64_zero).
    rewrite (nth_indep _ b64_zero (f O)) by (rewrite length_map, length_seq; exact Hi).
    rewrite (map_nth f), seq_nth by exact Hi. unfold f. cbn [Nat.add].
    destruct (SFltb (b64_of_nat i) x); split; split; intro H;
      try reflexivity; try discriminate H.
  - intros c Hc Hx. unfold k.
    rewrite (filter_ext_in _ (fun i => Nat.ltb i c)).
    + apply length_filter_ltb. exact Hc.
    + intros i Hi. apply in_seq in Hi. rewrite Hx. apply b64_ltb_of_nat; lia.
Qed.

Lemma sparse_vector_b64_leading_ones_witness :
  sparse_vector_b64 10 b64_0_1 = repeat b64_one 1 ++ repeat b64_zero 9.
Proof.
  pose proof (proj1 (sparse_vector_b64_leading_ones 10 b64_0_1 ltac:(vm_compute; reflexivity)))
    as H.
  exact H.
Defined.

(** C9: with [p = 50] and [sparsity = 0.3] (and whatever [n], [alpha],
    [beta]), the signal vector has ones at indices 0..14 and zeros at indices
    15..49, in exact arithmetic and in binary64, where [50 * 0.3] rounds to
    [15.0]. *)
Theorem sparse_vector_scenario :
  sparse_vector 50 (3 # 10) = repeat 1%Q 15 ++ repeat 0%Q 35 /\
  count_ones (sparse_vector 50 (3 # 10)) = 15%nat /\
  SFmul 53 1024 (b64_of_nat 50) b64_0_3 = b64_of_nat 15 /\
  sparse_vector_b64 50 b64_0_3 = repeat b64_one 15 ++ repeat b64_zero 35.
Proof.
  repeat split; vm_compute; reflexivity.
Qed.

(** ** Finite sums *)

Lemma sum_upto_ext (k : nat) (f g : nat -> R) :
  (forall i, (i < k)%nat -> f i = g i) -> sum_upto k f = sum_upto k g.
Proof.
  induction k as [|k IH]; intro H; simpl.
  - reflexivity.
  - rewrite IH, (H k) by (intros; try apply H; lia). reflexivity.
Qed.

Lemma sum_upto_plus (k : nat) (f g : nat -> R) :
  sum_upto k (fun i => f i + g i) = sum_upto k f + sum_upto k g.
Proof. induction k as [|k IH]; simpl; [lra | rewrite IH; lra]. Qed.

Lemma sum_upto_scal (k : nat) (c : R) (f : nat -> R) :
  sum_upto k (fun i => c * f i) = c * sum_upto k f.
Proof. induction k as [|k IH]; simpl; [lra | rewrite IH; lra]. Qed.

Lemma sum_upto_zero (k : nat) : sum_upto k (fun _ => 0) = 0.
Proof. induction k as [|k IH]; simpl; [lra | rewrite IH; lra]. Qed.

Lemma sum_upto_nonneg (k : nat) (f : nat -> R) :
  (forall i, (i < k)%nat -> 0 <= f i) -> 0 <= sum_upto k f.
Proof.
  induction k as [|k IH]; intro H; simpl.
  - lra.
  - assert (0 <= sum_upto k f) by (apply IH; intros; apply H; lia).
    assert (0 <= f k) by (apply H; lia). lra.
Qed.

Lemma sum_upto_pos (k : nat) (f : nat -> R) (i : nat) :
  (forall j, (j < k)%nat -> 0 <= f j) -> (i < k)%nat -> 0 < f i ->
  0 < sum_upto k f.
Proof.
  induction k as [|k IH]; intros H Hi Hf; simpl.
  - lia.
  - assert (0 <= f k) by (apply H; lia).
    assert (0 <= sum_upto k f) by (apply sum_upto_nonneg; intros; apply H; lia).
    destruct (Nat.eq_dec i k) as [->|Hne].
    + lra.
    + assert (0 < sum_upto k f) by (apply IH; [intros; apply H; lia | lia | exact Hf]).
      lra.
Qed.

Lemma sum_upto_all_zero (k : nat) (f : nat -> R) :
  (forall i, (i < k)%nat -> f i = 0) -> sum_upto k f = 0.
Proof.
  intro H. rewrite (sum_upto_ext k f (fun _ => 0)) by exact H.
  apply sum_upto_zero.
Qed.

(** A sum of non-negative terms vanishes only when every term does. *)
Lemma sum_upto_zero_inv (k : nat) (f : nat -> R) :
  (forall i, (i < k)%nat -> 0 <= f i) -> sum_upto k f = 0 ->
  forall i, (i < k)%nat -> f i = 0.
Proof.
  intros Hpos Hsum i Hi.
  destruct (Req_dec (f i) 0) as [E|E]; [exact E|].
  assert (0 <= f i) by (apply Hpos; exact Hi).
  assert (0 < sum_upto k f) by (apply (sum_upto_pos k f i); try assumption; lra).
  lra.
Qed.

(** Selecting one index with a Kronecker delta. *)
Lemma sum_upto_delta (m k : nat) (f : nat -> R) :
  (k < m)%nat ->
  sum_upto m (fun i => if Nat.eqb i k then f i else 0) = f k.
Proof.
  induction m as [|m IH]; intro Hk; simpl.
  - lia.
  - destruct (Nat.eqb_spec m k) as [->|Hne].
    + rewrite sum_upto_all_zero; [lra|].
      intros i Hi. destruct (Nat.eqb_spec i k); [lia | reflexivity].
    + rewrite IH by lia. lra.
Qed.

Lemma sum_upto_swap (a b : nat) (f : nat -> nat -> R) :
  sum_upto a (fun i => sum_upto b (fun j => f i j)) =
  sum_upto b (fun j => sum_upto a (fun i => f i j)).
Proof.
  induction a as [|a IH]; simpl.
  - now rewrite sum_upto_zero.
  - rewrite IH, <- sum_upto_plus. reflexivity.
Qed.

Lemma tsum_col (r : nat) (A : tensor) :
  tsum r 1 A = sum_upto r (fun i => A i O).
Proof. unfold tsum. apply sum_upto_ext. intros; simpl; lra. Qed.

(** Cauchy-Schwarz. *)
Lemma sum_upto_cauchy_schwarz (k : nat) (a b : nat -> R) :
  (sum_upto k (fun i => a i * b i)) ^ 2 <=
  sum_upto k (fun i => a i * a i) * sum_upto k (fun i => b i * b i).
Proof.
  induction k as [|k IH]; simpl.
  - lra.
  - set (A := sum_upto k (fun i => a i * b i)) in *.
    set (P := sum_upto k (fun i => a i * a i)) in *.
    set (Q := sum_upto k (fun i => b i * b i)) in *.
    assert (HP : 0 <= P) by (apply sum_upto_nonneg; intros; nra).
    assert (HQ : 0 <= Q) by (apply sum_upto_nonneg; intros; nra).
    set (x := a k). set (y := b k).
    assert (Hcross : 2 * (A * (x * y)) <= P * (y * y) + Q * (x * x)).
    { assert (Hxx : 0 <= x * x) by nra.
      assert (Hyy : 0 <= y * y) by nra.
      assert (H0 : 0 <= P * (y * y) + Q * (x * x)).
      { apply Rplus_le_le_0_compat; apply Rmult_le_pos; assumption. }
      assert (H1 : (2 * (A * (x * y))) ^ 2 <= (P * (y * y) + Q * (x * x)) ^ 2).
      { assert (H2 : 0 <= (P * (y * y) - Q * (x * x)) ^ 2) by apply pow2_ge_0.
        assert (H3 : A ^ 2 * (x * x * (y * y)) <= P * Q * (x * x * (y * y))).
        { apply Rmult_le_compat_r; [nra | exact IH]. }
        nra. }
      apply Rsqr_incr_0_var; [unfold Rsqr; nra | exact H0]. }
    nra.
Qed.

(** ** The covariance matrix *)

Lemma covariance_S_entry (alpha beta : R) (s : tensor) (i j : nat) :
  covariance_S alpha beta s i j =
  alpha * s i O * s j O + beta * (if Nat.eqb i j then 1 else 0).
Proof.
  unfold covariance_S, tadd, matmul, scal, transpose, identity. simpl. lra.
Qed.

Lemma covariance_S_quadratic_form (p : nat) (alpha beta : R) (s x : tensor) :
  matmul p (matmul p (transpose x) (covariance_S alpha beta s)) x O O =
  alpha * (sum_upto p (fun i => s i O * x i O)) ^ 2 +
  beta * sum_upto p (fun i => x i O * x i O).
Proof.
  unfold matmul at 1 2. unfold transpose.
  rewrite (sum_upto_ext p _
             (fun l => alpha * (sum_upto p (fun i => s i O * x i O) * (s l O * x l O))
                       + beta * (x l O * x l O))).
  - rewrite sum_upto_plus, !sum_upto_scal. simpl. lra.
  - intros l Hl.
    rewrite (sum_upto_ext p _
               (fun i => alpha * (s l O * (s i O * x i O))
                         + beta * (if Nat.eqb i l then x i O else 0))).
    + rewrite sum_upto_plus, !sum_upto_scal, sum_upto_delta by exact Hl. lra.
    + intros i Hi. rewrite covariance_S_entry.
      destruct (Nat.eqb i l); lra.
Qed.

(** C4: [S = alpha * sparse_vector @ sparse_vector.T + beta * identity(p)]
    is symmetric, and [x.T @ S @ x >= 0] for every column [x], as soon as
    [alpha >= 0] and [beta >= 0]. *)
Theorem covariance_S_symmetric_psd (p : nat) (sparsity : Q) (alpha beta : R) :
  0 <= alpha -> 0 <= beta ->
  let S := covariance_S alpha beta (from_numpy (sparse_vector p sparsity)) in
  teq p p (transpose S) S /\
  forall x : tensor, 0 <= matmul p (matmul p (transpose x) S) x O O.
Proof.
  intros Ha Hb S. split.
  - intros i j _ _. unfold transpose, S. rewrite !covariance_S_entry.
    rewrite (Nat.eqb_sym j i). lra.
  - intro x. unfold S. rewrite covariance_S_quadratic_form.
    assert (0 <= sum_upto p (fun i => x i O * x i O))
      by (apply sum_upto_nonneg; intros; nra).
    assert (0 <= (sum_upto p
                    (fun i => from_numpy (sparse_vector p sparsity) i O * x i O)) ^ 2)
      by apply pow2_ge_0.
    apply Rplus_le_le_0_compat; apply Rmult_le_pos; assumption.
Qed.

Lemma covariance_S_symmetric_psd_witness :
  0 <= matmul 2 (matmul 2 (transpose (fun i _ => INR i - 1))
                          (covariance_S (8 / 10) (2 / 10)
                             (from_numpy (sparse_vector 2 (1 # 2)))))
                (fun i _ => INR i - 1) O O.
Proof.
  apply (proj2 (covariance_S_symmetric_psd 2 (1 # 2) (8 / 10) (2 / 10)
                  ltac:(lra) ltac:(lra))).
Defined.

(** ** The sine error *)

Lemma tnorm_col_sq (p : nat) (x : tensor) :
  tsum p 1 (tmul x x) = sum_upto p (fun i => x i O * x i O).
Proof. rewrite tsum_col. reflexivity. Qed.

Lemma tnorm_pos (p : nat) (x : tensor) : nonzero p x -> 0 < tnorm p 1 x.
Proof.
  intros [i [Hi Hx]]. unfold tnorm. apply sqrt_lt_R0.
  rewrite tnorm_col_sq.
  apply (sum_upto_pos p _ i); [intros; nra | exact Hi | nra].
Qed.

Lemma tnorm_zero (p : nat) (x : tensor) :
  (forall i, (i < p)%nat -> x i O = 0) -> tnorm p 1 x = 0.
Proof.
  intro H. unfold tnorm. rewrite tnorm_col_sq, sum_upto_all_zero.
  - apply sqrt_0.
  - intros i Hi. rewrite (H i Hi). lra.
Qed.

Lemma tnorm_sq (p : nat) (x : tensor) :
  tnorm p 1 x * tnorm p 1 x = sum_upto p (fun i => x i O * x i O).
Proof.
  unfold tnorm. rewrite sqrt_sqrt.
  - apply tnorm_col_sq.
  - rewrite tnorm_col_sq. apply sum_upto_nonneg; intros; nra.
Qed.

(** On non-zero columns the cosine is defined and its square is at most 1. *)
Lemma cosine_error_defined (p : nat) (r s : tensor) :
  nonzero p r -> nonzero p s ->
  exists c, cosine_error p r s = Some c /\
            c = tsum p 1 (tmul r s) / (tnorm p 1 r * tnorm p 1 s) /\
            c ^ 2 <= 1.
Proof.
  intros Hr Hs.
  pose proof (tnorm_pos p r Hr) as Hnr.
  pose proof (tnorm_pos p s Hs) as Hns.
  assert (Hd : tnorm p 1 r * tnorm p 1 s <> 0) by nra.
  unfold cosine_error, div_opt.
  destruct (Req_dec_T (tnorm p 1 r * tnorm p 1 s) 0) as [E|_]; [contradiction|].
  eexists; split; [reflexivity|]. split; [reflexivity|].
  set (d := tnorm p 1 r * tnorm p 1 s) in *.
  set (a := tsum p 1 (tmul r s)).
  assert (Hcs : a ^ 2 <= d * d).
  { unfold a, d. rewrite tsum_col.
    replace (tnorm p 1 r * tnorm p 1 s * (tnorm p 1 r * tnorm p 1 s))
      with ((tnorm p 1 r * tnorm p 1 r) * (tnorm p 1 s * tnorm p 1 s)) by ring.
    rewrite !tnorm_sq. apply sum_upto_cauchy_schwarz. }
  assert (Hdd : 0 < d * d) by nra.
  replace ((a / d) ^ 2) with (a ^ 2 / (d * d)) by (field; exact Hd).
  apply (Rmult_le_reg_r (d * d)); [exact Hdd|].
  unfold Rdiv. rewrite Rmult_assoc, Rinv_l by lra. lra.
Qed.

(** C5 (as written it fails): on floats, with [recovered = [1, 1]] in float32
    and [signal = [1, 1]] in float64, the float32 norm of [recovered] is
    1.41421354, below the square root of 2; the cosine is 1.0000000171, above
    1; and the sine error is the square root of a negative number, NaN,
    which is no number of [0, 1]. *)
Lemma sine_error_float_counterexample :
  cosine_error_float [f32_of_nat 1; f32_of_nat 1] [b64_one; b64_one] =
    S754_finite false 4503599704446322 (-52) /\
  SFltb b64_one
        (cosine_error_float [f32_of_nat 1; f32_of_nat 1] [b64_one; b64_one]) = true /\
  sine_error_float [f32_of_nat 1; f32_of_nat 1] [b64_one; b64_one] = S754_nan.
Proof. repeat split; vm_compute; reflexivity. Qed.

(** C5 (amended): in exact arithmetic, for non-zero recovered and signal
    vectors the sine error is a real number of the interval [0, 1]. *)
Theorem sine_error_bounded (p : nat) (recovered signal : tensor) :
  nonzero p recovered -> nonzero p signal ->
  exists e, sine_error p recovered signal = Some e /\ 0 <= e <= 1.
Proof.
  intros Hr Hs.
  destruct (cosine_error_defined p recovered signal Hr Hs) as [c [Hc [_ Hle]]].
  unfold sine_error. rewrite Hc. unfold obind, pow_half.
  assert (H0 : 0 <= c ^ 2) by apply pow2_ge_0.
  destruct (Rlt_dec (1 - c ^ 2) 0) as [E|_]; [lra|].
  eexists; split; [reflexivity|]. split.
  - apply sqrt_pos.
  - rewrite <- sqrt_1 at 2. apply sqrt_le_1_alt. lra.
Qed.

Lemma sine_error_bounded_witness :
  exists e, sine_error 2 (fun i _ => INR i) (fun _ _ => 1) = Some e /\ 0 <= e <= 1.
Proof.
  apply (sine_error_bounded 2 (fun i _ => INR i) (fun _ _ => 1)).
  - exists 1%nat. split; [lia | simpl; lra].
  - exists 0%nat. split; [lia | lra].
Defined.

(** C6: the division of the cosine has no guard.  When the recovered vector
    is zero its norm is zero, so is the denominator, and neither the cosine
    nor the sine error is a number. *)
Theorem sine_error_zero_recovered (p : nat) (recovered signal : tensor) :
  (forall i, (i < p)%nat -> recovered i O = 0) ->
  tnorm p 1 recovered * tnorm p 1 signal = 0 /\
  cosine_error p recovered signal = None /\
  sine_error p recovered signal = None.
Proof.
  intro H.
  assert (Hd : tnorm p 1 recovered * tnorm p 1 signal = 0)
    by (rewrite (tnorm_zero p recovered H); lra).
  assert (Hc : cosine_error p recovered signal = None).
  { unfold cosine_error, div_opt.
    destruct (Req_dec_T (tnorm p 1 recovered * tnorm p 1 signal) 0) as [_|E];
      [reflexivity | contradiction]. }
  split; [exact Hd|]. split; [exact Hc|].
  unfold sine_error. rewrite Hc. reflexivity.
Qed.

Lemma sine_error_zero_recovered_witness :
  sine_error 3 zeros (from_numpy (sparse_vector 3 (1 # 2))) = None.
Proof.
  apply (sine_error_zero_recovered 3 zeros (from_numpy (sparse_vector 3 (1 # 2)))).
  intros i _. reflexivity.
Defined.

Lemma tnorm_scal (p : nat) (c : R) (x : tensor) :
  tnorm p 1 (scal c x) = Rabs c * tnorm p 1 x.
Proof.
  unfold tnorm. rewrite !tnorm_col_sq.
  rewrite (sum_upto_ext p _ (fun i => (c * c) * (x i O * x i O)))
    by (intros; unfold scal; ring).
  rewrite sum_upto_scal, sqrt_mult_alt by nra.
  f_equal. replace (c * c) with (Rsqr c) by reflexivity. apply sqrt_Rsqr_abs.
Qed.

(** C7 (as written it fails): on floats, the sine error of [[1, 1]] against
    the signal [[1, 1]] is NaN, while that of [7 * [1, 1]] against the same
    signal is the number 1.95e-4: scaling the recovered vector changed the
    metric. *)
Lemma sine_error_float_scale_counterexample :
  sine_error_float [f32_of_nat 1; f32_of_nat 1] [b64_one; b64_one] = S754_nan /\
  sine_error_float (scal_f32 (f32_of_nat 7) [f32_of_nat 1; f32_of_nat 1])
                   [b64_one; b64_one] =
    S754_finite false 7194059639141544 (-65) /\
  sine_error_float (scal_f32 (f32_of_nat 7) [f32_of_nat 1; f32_of_nat 1])
                   [b64_one; b64_one] <>
  sine_error_float [f32_of_nat 1; f32_of_nat 1] [b64_one; b64_one].
Proof.
  split; [vm_compute; reflexivity|]. split; [vm_compute; reflexivity|].
  vm_compute. discriminate.
Qed.

(** C7 (amended): in exact arithmetic, multiplying a non-zero recovered
    vector by a non-zero scalar, of either sign, leaves the sine error
    against a non-zero signal unchanged. *)
Theorem sine_error_scale_invariant (p : nat) (c : R) (recovered signal : tensor) :
  c <> 0 -> nonzero p recovered -> nonzero p signal ->
  exists e, sine_error p recovered signal = Some e /\
            sine_error p (scal c recovered) signal = Some e.
Proof.
  intros Hc Hr Hs.
  assert (Hcr : nonzero p (scal c recovered)).
  { destruct Hr as [i [Hi Hx]]. exists i. split; [exact Hi|].
    unfold scal. apply Rmult_integral_contrapositive_currified; assumption. }
  destruct (cosine_error_defined p recovered signal Hr Hs) as [c1 [H1 [E1 L1]]].
  destruct (cosine_error_defined p (scal c recovered) signal Hcr Hs)
    as [c2 [H2 [E2 L2]]].
  pose proof (tnorm_pos p recovered Hr) as Hnr.
  pose proof (tnorm_pos p signal Hs) as Hns.
  assert (Hsq : c2 ^ 2 = c1 ^ 2).
  { rewrite E1, E2, tnorm_scal.
    rewrite (tsum_col p (tmul (scal c recovered) signal)).
    rewrite (sum_upto_ext p _ (fun i => c * tmul recovered signal i O))
      by (intros; unfold tmul, scal; ring).
    rewrite sum_upto_scal, <- tsum_col.
    assert (Habs : Rabs c <> 0) by (apply Rabs_no_R0; exact Hc).
    assert (Hcc : Rabs c * Rabs c = c * c).
    { replace (Rabs c * Rabs c) with (Rsqr (Rabs c)) by reflexivity.
      rewrite <- Rsqr_abs. reflexivity. }
    set (a := tsum p 1 (tmul recovered signal)).
    replace ((c * a / (Rabs c * tnorm p 1 recovered * tnorm p 1 signal)) ^ 2)
      with ((c * c) / (Rabs c * Rabs c) *
            (a / (tnorm p 1 recovered * tnorm p 1 signal)) ^ 2)
      by (field; repeat split; lra).
    rewrite Hcc. field. repeat split; lra. }
  unfold sine_error. rewrite H1, H2. unfold obind. rewrite Hsq.
  unfold pow_half.
  assert (H0 : 0 <= c1 ^ 2) by apply pow2_ge_0.
  destruct (Rlt_dec (1 - c1 ^ 2) 0) as [E|_]; [lra|].
  eexists; split; reflexivity.
Qed.

Lemma sine_error_scale_invariant_witness :
  exists e, sine_error 2 (fun i _ => INR i) (fun _ _ => 1) = Some e /\
            sine_error 2 (scal (-3) (fun i _ => INR i)) (fun _ _ => 1) = Some e.
Proof.
  apply (sine_error_scale_invariant 2 (-3) (fun i _ => INR i) (fun _ _ => 1)).
  - lra.
  - exists 1%nat. split; [lia | simpl; lra].
  - exists 0%nat. split; [lia | lra].
Defined.

(** ** Renormalisation of the Hadamard parametrisation *)

Lemma tnorm_nonneg (r c : nat) (x : tensor) : 0 <= tnorm r c x.
Proof. unfold tnorm. apply sqrt_pos. Qed.

Lemma tnorm_zero_iff (p : nat) (x : tensor) :
  tnorm p 1 x = 0 <-> forall i, (i < p)%nat -> x i O = 0.
Proof.
  split.
  - intros H i Hi.
    assert (Hs : sum_upto p (fun i => x i O * x i O) = 0)
      by (rewrite <- tnorm_sq, H; lra).
    assert (Hx : x i O * x i O = 0).
    { apply (sum_upto_zero_inv p (fun i => x i O * x i O));
        [intros; nra | exact Hs | exact Hi]. }
    nra.
  - apply tnorm_zero.
Qed.

Lemma zero_or_nonzero (p : nat) (x : tensor) :
  (forall i, (i < p)%nat -> x i O = 0) \/ nonzero p x.
Proof.
  induction p as [|p [IH|[i [Hi Hx]]]].
  - left. intros i Hi. lia.
  - destruct (Req_dec (x p O) 0) as [E|E].
    + left. intros i Hi. destruct (Nat.eq_dec i p) as [->|Hne];
        [exact E | apply IH; lia].
    + right. exists p. split; [lia | exact E].
  - right. exists i. split; [lia | exact Hx].
Qed.

Lemma nonzero_tnorm (p : nat) (x : tensor) : nonzero p x <-> tnorm p 1 x <> 0.
Proof.
  split.
  - intro H. pose proof (tnorm_pos p x H). lra.
  - intro H. destruct (zero_or_nonzero p x) as [Hz|Hn]; [|exact Hn].
    exfalso. apply H. apply tnorm_zero. exact Hz.
Qed.

Lemma pow_half_nonneg (x : R) : 0 <= x -> pow_half x = Some (sqrt x).
Proof.
  intro H. unfold pow_half. destruct (Rlt_dec x 0); [lra | reflexivity].
Qed.

(** What [renormalize] returns, and when. *)
Lemma renormalize_defined (p : nat) (u v : tensor) :
  tnorm p 1 (tmul u v) <> 0 ->
  renormalize p u v =
  Some ((fun i j => u i j / sqrt (tnorm p 1 (tmul u v))),
        (fun i j => v i j / sqrt (tnorm p 1 (tmul u v)))).
Proof.
  intro H. unfold renormalize.
  rewrite pow_half_nonneg by apply tnorm_nonneg. unfold obind, tdiv.
  assert (Hd : sqrt (tnorm p 1 (tmul u v)) <> 0).
  { intro E. apply sqrt_eq_0 in E; [contradiction | apply tnorm_nonneg]. }
  destruct (Req_dec_T (sqrt (tnorm p 1 (tmul u v))) 0); [contradiction|].
  reflexivity.
Qed.

Lemma renormalize_undefined (p : nat) (u v : tensor) :
  tnorm p 1 (tmul u v) = 0 -> renormalize p u v = None.
Proof.
  intro H. unfold renormalize.
  rewrite pow_half_nonneg by apply tnorm_nonneg. unfold obind, tdiv.
  rewrite H, sqrt_0.
  destruct (Req_dec_T 0 0) as [_|E]; [reflexivity | contradiction].
Qed.

Lemma renormalize_none_iff (p : nat) (u v : tensor) :
  renormalize p u v = None <-> tnorm p 1 (tmul u v) = 0.
Proof.
  split.
  - intro H. destruct (Req_dec (tnorm p 1 (tmul u v)) 0) as [E|E]; [exact E|].
    rewrite (renormalize_defined p u v E) in H. discriminate.
  - apply renormalize_undefined.
Qed.

(** Dividing both factors by the square root of the norm of the product
    divides the product by its norm. *)
Lemma renormalized_unit (p : nat) (u v : tensor) :
  tnorm p 1 (tmul u v) <> 0 ->
  tnorm p 1 (tmul (fun i j => u i j / sqrt (tnorm p 1 (tmul u v)))
                  (fun i j => v i j / sqrt (tnorm p 1 (tmul u v)))) = 1.
Proof.
  intro H. set (N := tnorm p 1 (tmul u v)) in *.
  assert (HN : 0 < N) by (pose proof (tnorm_nonneg p 1 (tmul u v)) as Hge; fold N in Hge; lra).
  assert (Hd : sqrt N <> 0).
  { intro E. apply sqrt_eq_0 in E; lra. }
  unfold tnorm at 1. rewrite tnorm_col_sq.
  rewrite (sum_upto_ext p _
             (fun i => / (N * N) * (tmul u v i O * tmul u v i O))).
  - rewrite sum_upto_scal, <- tnorm_sq. fold N.
    replace (/ (N * N) * (N * N)) with 1 by (field; lra).
    apply sqrt_1.
  - intros i _. unfold tmul.
    replace (N * N) with ((sqrt N * sqrt N) * (sqrt N * sqrt N))
      by (rewrite sqrt_sqrt by lra; reflexivity).
    field. exact Hd.
Qed.

Lemma renormalize_some_unit (p : nat) (u v u' v' : tensor) :
  renormalize p u v = Some (u', v') -> tnorm p 1 (tmul u' v') = 1.
Proof.
  intro H.
  destruct (Req_dec (tnorm p 1 (tmul u v)) 0) as [E|E].
  - rewrite (renormalize_undefined p u v E) in H. discriminate.
  - rewrite (renormalize_defined p u v E) in H. injection H as <- <-.
    apply renormalized_unit. exact E.
Qed.

(** The loop index after [k] passes is [k]. *)
Lemma hd_loop_succ (p : nat) (S sv : tensor) (step : R) (k : N) (st : hd_state) :
  hd_loop p S sv step (N.succ k) st =
  (N.succ (fst (hd_loop p S sv step k st)),
   hd_iteration p S sv step (fst (hd_loop p S sv step k st))
                (snd (hd_loop p S sv step k st))).
Proof. unfold hd_loop. rewrite N.iter_succ. reflexivity. Qed.

Lemma gd_loop_succ (n p : nat) (m : method) (X sv : tensor) (step : R)
      (k : N) (st : gd_state) :
  gd_loop n p m X sv step (N.succ k) st =
  (N.succ (fst (gd_loop n p m X sv step k st)),
   gd_iteration n p m X sv step (fst (gd_loop n p m X sv step k st))
                (snd (gd_loop n p m X sv step k st))).
Proof. unfold gd_loop. rewrite N.iter_succ. reflexivity. Qed.

Lemma hd_loop_index (p : nat) (S sv : tensor) (step : R) (k : N) (st : hd_state) :
  fst (hd_loop p S sv step k st) = k.
Proof.
  induction k as [|k IH] using N.peano_ind.
  - reflexivity.
  - rewrite hd_loop_succ. simpl. now rewrite IH.
Qed.

Lemma gd_loop_index (n p : nat) (m : method) (X sv : tensor) (step : R)
      (k : N) (st : gd_state) :
  fst (gd_loop n p m X sv step k st) = k.
Proof.
  induction k as [|k IH] using N.peano_ind.
  - reflexivity.
  - rewrite gd_loop_succ. simpl. now rewrite IH.
Qed.

Lemma hd_init_unit (p : nat) (sv u v : tensor) : unit_product p (hd_init p sv u v).
Proof. intros u' v' H. simpl in H. eapply renormalize_some_unit; eassumption. Qed.

Lemma hd_iteration_unit (p : nat) (S sv : tensor) (step : R) (i : N) (st : hd_state) :
  unit_product p (hd_iteration p S sv step i st).
Proof.
  intros u' v' H. simpl in H.
  destruct (hd_uv st) as [[u v]|]; [|discriminate].
  unfold hadamard_step in H. eapply renormalize_some_unit; eassumption.
Qed.

Lemma hd_loop_unit (p : nat) (S sv : tensor) (step : R) (k : N) (u v : tensor) :
  unit_product p (snd (hd_loop p S sv step k (hd_init p sv u v))).
Proof.
  induction k as [|k IH] using N.peano_ind.
  - apply hd_init_unit.
  - rewrite hd_loop_succ. simpl. apply hd_iteration_unit.
Qed.

(** C2: in exact arithmetic, every renormalisation that returns numbers
    returns factors whose product has norm 1: the initial one, the one that
    follows an ascent update, and therefore the state after any number of
    passes through the loop.  It returns numbers, namely [u] and [v] divided
    by the square root of [norm (u * v)], as soon as the product it divides
    by is not zero. *)
Theorem renormalize_unit_norm (p : nat) (S sparse_vector : tensor) (step_size : R)
        (u v : tensor) :
  (forall u' v', renormalize p u v = Some (u', v') ->
                 tnorm p 1 (tmul u' v') = 1) /\
  (forall u' v', hadamard_step p S step_size u v = Some (u', v') ->
                 tnorm p 1 (tmul u' v') = 1) /\
  (forall epochs u' v',
     hd_uv (snd (hd_loop p S sparse_vector step_size epochs
                         (hd_init p sparse_vector u v))) = Some (u', v') ->
     tnorm p 1 (tmul u' v') = 1) /\
  (nonzero p (tmul u v) ->
   renormalize p u v =
   Some ((fun i j => u i j / sqrt (tnorm p 1 (tmul u v))),
         (fun i j => v i j / sqrt (tnorm p 1 (tmul u v)))) /\
   tnorm p 1 (tmul (fun i j => u i j / sqrt (tnorm p 1 (tmul u v)))
                   (fun i j => v i j / sqrt (tnorm p 1 (tmul u v)))) = 1) /\
  (nonzero p (tmul (fst (ascent p S step_size u v))
                   (snd (ascent p S step_size u v))) ->
   exists u' v', hadamard_step p S step_size u v = Some (u', v') /\
                 tnorm p 1 (tmul u' v') = 1).
Proof.
  split; [intros u' v'; apply renormalize_some_unit|].
  split; [intros u' v'; unfold hadamard_step; apply renormalize_some_unit|].
  split; [intros epochs u' v' E; eapply hd_loop_unit; exact E|].
  split.
  - intro H. apply nonzero_tnorm in H.
    split; [apply renormalize_defined | apply renormalized_unit]; exact H.
  - intro H. apply nonzero_tnorm in H. unfold hadamard_step.
    do 2 eexists. split; [apply renormalize_defined; exact H|].
    apply renormalized_unit. exact H.
Qed.

Lemma renormalize_unit_norm_witness :
  tnorm 2 1 (tmul (fun _ _ => 2 / sqrt (tnorm 2 1 (tmul (fun _ _ => 2) (fun _ _ => 3))))
                  (fun _ _ => 3 / sqrt (tnorm 2 1 (tmul (fun _ _ => 2) (fun _ _ => 3)))))
  = 1.
Proof.
  apply (proj1 (proj2 (proj2 (proj2 (renormalize_unit_norm 2 identity zeros
                                       (1 / 100000)
                                       (fun _ _ => 2) (fun _ _ => 3)))))).
  exists 0%nat. split; [lia | unfold tmul; lra].
Defined.

Lemma ascent_zero_product (p : nat) (S : tensor) (step : R) (u v : tensor) :
  (forall i, (i < p)%nat -> u i O * v i O = 0) ->
  forall i, (i < p)%nat ->
    tmul (fst (ascent p S step u v)) (snd (ascent p S step u v)) i O = 0.
Proof.
  intros H i Hi. unfold ascent. simpl.
  assert (Hm : forall k, matmul p (tadd S (transpose S)) (tmul u v) k O = 0).
  { intro k. unfold matmul. apply sum_upto_all_zero.
    intros l Hl. unfold tmul. rewrite (H l Hl). ring. }
  unfold tmul, tadd, tscale. rewrite !Hm.
  replace ((u i O + v i O * 0 * step) * (v i O + u i O * 0 * step))
    with (u i O * v i O) by ring.
  apply H. exact Hi.
Qed.

(** C10: neither renormalisation checks its denominator.  The initial one is
    defined exactly when [u * v] has a non-zero entry, the one of an
    iteration exactly when the updated factors have one; and when [u * v] is
    zero the denominator [norm ** 0.5] is zero, in the initial
    renormalisation and in the one of the next iteration (the update leaves
    the zero product in place). *)
Theorem renormalize_precondition (p : nat) (S : tensor) (step_size : R) (u v : tensor) :
  (renormalize p u v <> None <-> nonzero p (tmul u v)) /\
  (hadamard_step p S step_size u v <> None <->
   nonzero p (tmul (fst (ascent p S step_size u v))
                   (snd (ascent p S step_size u v)))) /\
  ((forall i, (i < p)%nat -> u i O * v i O = 0) ->
   pow_half (tnorm p 1 (tmul u v)) = Some 0 /\
   renormalize p u v = None /\
   pow_half (tnorm p 1 (tmul (fst (ascent p S step_size u v))
                             (snd (ascent p S step_size u v)))) = Some 0 /\
   hadamard_step p S step_size u v = None).
Proof.
  split; [|split].
  - rewrite nonzero_tnorm, <- renormalize_none_iff. reflexivity.
  - rewrite nonzero_tnorm, <- renormalize_none_iff. reflexivity.
  - intro H.
    assert (H1 : tnorm p 1 (tmul u v) = 0) by (apply tnorm_zero; exact H).
    assert (H2 : tnorm p 1 (tmul (fst (ascent p S step_size u v))
                                 (snd (ascent p S step_size u v))) = 0).
    { apply tnorm_zero. apply ascent_zero_product. exact H. }
    repeat split.
    + rewrite H1, pow_half_nonneg, sqrt_0 by lra. reflexivity.
    + apply renormalize_undefined. exact H1.
    + rewrite H2, pow_half_nonneg, sqrt_0 by lra. reflexivity.
    + unfold hadamard_step. apply renormalize_undefined. exact H2.
Qed.

Lemma renormalize_precondition_witness :
  renormalize 2 zeros (fun _ _ => 1) = None /\
  hadamard_step 2 identity (1 / 100000) zeros (fun _ _ => 1) = None.
Proof.
  pose proof (proj2 (proj2 (renormalize_precondition 2 identity (1 / 100000)
                              zeros (fun _ _ => 1)))) as H.
  destruct H as [_ [H1 [_ H2]]].
  - intros i _. unfold zeros. lra.
  - split; assumption.
Defined.

(** ** Derivatives of the objectives *)

Lemma objective_as_loss (n p : nat) (m : method) (X u v w : tensor) :
  objective_function n p m X u v w =
  loss n p X (left_factor p m X u) (recovered_of m v w).
Proof. destruct m; reflexivity. Qed.

Lemma derivable_pt_lim_eq (f : R -> R) (x l l' : R) :
  derivable_pt_lim f x l -> l = l' -> derivable_pt_lim f x l'.
Proof. intros H <-. exact H. Qed.

Lemma derivable_pt_lim_sum_upto (k : nat) (f : nat -> R -> R) (f' : nat -> R) (x : R) :
  (forall i, (i < k)%nat -> derivable_pt_lim (f i) x (f' i)) ->
  derivable_pt_lim (fun t => sum_upto k (fun i => f i t)) x (sum_upto k f').
Proof.
  induction k as [|k IH]; intro H; simpl.
  - apply (derivable_pt_lim_const 0).
  - apply (derivable_pt_lim_plus (fun t => sum_upto k (fun i => f i t)) (f k)).
    + apply IH. intros i Hi. apply H. lia.
    + apply H. lia.
Qed.

(** One squared entry of the residual. *)
Lemma derivable_pt_lim_residual_sq (c : R) (a r : R -> R) (t0 a' r' : R) :
  derivable_pt_lim a t0 a' -> derivable_pt_lim r t0 r' ->
  derivable_pt_lim
    (fun t => (c - (0 + a t * r t)) * (c - (0 + a t * r t))) t0
    (2 * (c - (0 + a t0 * r t0)) * - (a' * r t0 + a t0 * r')).
Proof.
  intros Ha Hr.
  assert (Hres : derivable_pt_lim (fun t => c - (0 + a t * r t)) t0
                   (0 - (0 + (a' * r t0 + a t0 * r')))).
  { apply (derivable_pt_lim_minus (fct_cte c) (fun t => 0 + a t * r t)).
    - apply derivable_pt_lim_const.
    - apply (derivable_pt_lim_plus (fct_cte 0) (fun t => a t * r t)).
      + apply derivable_pt_lim_const.
      + apply (derivable_pt_lim_mult a r); assumption. }
  eapply derivable_pt_lim_eq.
  - apply (derivable_pt_lim_mult (fun t => c - (0 + a t * r t))
                                 (fun t => c - (0 + a t * r t))); exact Hres.
  - ring.
Qed.

(** The derivative of the loss along a curve of factors. *)
Lemma loss_derivative (n p : nat) (X : tensor) (a r : R -> tensor)
      (t0 : R) (a' r' : nat -> R) :
  (forall i, (i < n)%nat -> derivable_pt_lim (fun t => a t i O) t0 (a' i)) ->
  (forall j, (j < p)%nat -> derivable_pt_lim (fun t => r t j O) t0 (r' j)) ->
  derivable_pt_lim (fun t => loss n p X (a t) (r t)) t0
    (sum_upto n (fun i => sum_upto p (fun j =>
       2 * (X i j - (0 + a t0 i O * r t0 j O)) *
       - (a' i * r t0 j O + a t0 i O * r' j)))).
Proof.
  intros Ha Hr. unfold loss, tsum.
  apply (derivable_pt_lim_sum_upto n
           (fun i t => sum_upto p (fun j =>
              tmul (tsub X (matmul 1 (a t) (transpose (r t))))
                   (tsub X (matmul 1 (a t) (transpose (r t)))) i j))).
  intros i Hi.
  apply (derivable_pt_lim_sum_upto p
           (fun j t => tmul (tsub X (matmul 1 (a t) (transpose (r t))))
                            (tsub X (matmul 1 (a t) (transpose (r t)))) i j)).
  intros j Hj.
  apply (derivable_pt_lim_residual_sq (X i j) (fun t => a t i O) (fun t => r t j O)).
  - apply Ha; exact Hi.
  - apply Hr; exact Hj.
Qed.

Lemma adjoint_left_entry (p : nat) (X a r : tensor) (i : nat) :
  adjoint_left p X a r i O =
  - sum_upto p (fun j => 2 * (X i j - (0 + a i O * r j O)) * r j O).
Proof.
  unfold adjoint_left, scal, matmul, tsub, transpose. simpl. ring.
Qed.

Lemma adjoint_right_entry (n : nat) (X a r : tensor) (j : nat) :
  adjoint_right n X a r j O =
  - sum_upto n (fun i => 2 * (X i j - (0 + a i O * r j O)) * a i O).
Proof.
  unfold adjoint_right, scal, matmul, tsub, transpose. simpl. ring.
Qed.

(** Moving the left factor only: the chain rule through [adjoint_left]. *)
Lemma loss_derivative_left (n p : nat) (X : tensor) (a : R -> tensor) (r : tensor)
      (t0 : R) (a' : nat -> R) :
  (forall i, (i < n)%nat -> derivable_pt_lim (fun t => a t i O) t0 (a' i)) ->
  derivable_pt_lim (fun t => loss n p X (a t) r) t0
    (sum_upto n (fun i => a' i * adjoint_left p X (a t0) r i O)).
Proof.
  intro Ha. eapply derivable_pt_lim_eq.
  - apply (loss_derivative n p X a (fun _ => r) t0 a' (fun _ => 0)).
    + exact Ha.
    + intros j _. apply (derivable_pt_lim_const (r j O)).
  - apply sum_upto_ext. intros i _. rewrite adjoint_left_entry.
    rewrite <- Ropp_mult_distr_r, Ropp_mult_distr_l, <- sum_upto_scal.
    apply sum_upto_ext. intros j _. ring.
Qed.

(** Moving the right factor only: the chain rule through [adjoint_right]. *)
Lemma loss_derivative_right (n p : nat) (X a : tensor) (r : R -> tensor)
      (t0 : R) (r' : nat -> R) :
  (forall j, (j < p)%nat -> derivable_pt_lim (fun t => r t j O) t0 (r' j)) ->
  derivable_pt_lim (fun t => loss n p X a (r t)) t0
    (sum_upto p (fun j => r' j * adjoint_right n X a (r t0) j O)).
Proof.
  intro Hr. eapply derivable_pt_lim_eq.
  - apply (loss_derivative n p X (fun _ => a) r t0 (fun _ => 0) r').
    + intros i _. apply (derivable_pt_lim_const (a i O)).
    + exact Hr.
  - rewrite sum_upto_swap. apply sum_upto_ext. intros j _.
    rewrite adjoint_right_entry.
    rewrite <- Ropp_mult_distr_r, Ropp_mult_distr_l, <- sum_upto_scal.
    apply sum_upto_ext. intros i _. ring.
Qed.

Lemma along_self (u : tensor) (k : nat) : along u k (u k O) = u.
Proof.
  apply functional_extensionality; intro i.
  apply functional_extensionality; intro j.
  unfold along.
  destruct (Nat.eqb_spec i k) as [->|_]; simpl; [|reflexivity].
  destruct (Nat.eqb_spec j 0) as [->|_]; reflexivity.
Qed.

Lemma along_entry (u : tensor) (k i : nat) (t : R) :
  along u k t i O = if Nat.eqb i k then t else u i O.
Proof. unfold along. destruct (Nat.eqb i k); reflexivity. Qed.

(** Entry [i] of the line along coordinate [k] moves at speed 1 when
    [i = k] and not at all otherwise. *)
Lemma derivable_pt_lim_along (u : tensor) (k i : nat) (t0 : R) :
  derivable_pt_lim (fun t => along u k t i O) t0 (if Nat.eqb i k then 1 else 0).
Proof.
  apply (derivable_pt_lim_ext (fun t => if Nat.eqb i k then t else u i O)).
  - intro t. symmetry. apply along_entry.
  - destruct (Nat.eqb i k).
    + apply derivable_pt_lim_id.
    + apply (derivable_pt_lim_const (u i O)).
Qed.

Lemma derivable_pt_lim_matmul_along (p : nat) (X u : tensor) (k i : nat) (t0 : R) :
  (k < p)%nat ->
  derivable_pt_lim (fun t => matmul p X (along u k t) i O) t0 (X i k).
Proof.
  intro Hk. unfold matmul. eapply derivable_pt_lim_eq.
  - apply (derivable_pt_lim_sum_upto p (fun l t => X i l * along u k t l O)
             (fun l => if Nat.eqb l k then X i l else 0)).
    intros l _. eapply derivable_pt_lim_eq.
    + apply (derivable_pt_lim_scal (fun t => along u k t l O) (X i l)).
      apply derivable_pt_lim_along.
    + destruct (Nat.eqb l k); ring.
  - apply sum_upto_delta. exact Hk.
Qed.

(** Entry [j] of the recovered vector when [v] moves along coordinate [l]. *)
Lemma derivable_pt_lim_recovered_v (m : method) (v w : tensor) (l j : nat) :
  derivable_pt_lim (fun t => recovered_of m (along v l t) w j O) (v l O)
    (if Nat.eqb j l
     then match m with Method1 | Method2 => w l O | _ => 2 * v l O end
     else 0).
Proof.
  pose proof (derivable_pt_lim_along v l j (v l O)) as Hv.
  destruct m; unfold recovered_of, tmul, tsub.
  1, 2: eapply derivable_pt_lim_eq;
    [ apply (derivable_pt_lim_mult (fun t => along v l t j O) (fct_cte (w j O)));
      [exact Hv | apply derivable_pt_lim_const]
    | unfold fct_cte; rewrite along_entry;
      destruct (Nat.eqb_spec j l) as [E|_]; [try rewrite E|]; ring ].
  1, 2: eapply derivable_pt_lim_eq;
    [ apply (derivable_pt_lim_minus
               (fun t => along v l t j O * along v l t j O) (fct_cte (w j O * w j O)));
      [ apply (derivable_pt_lim_mult (fun t => along v l t j O)
                                     (fun t => along v l t j O)); exact Hv
      | apply derivable_pt_lim_const ]
    | rewrite along_entry; destruct (Nat.eqb_spec j l) as [E|_]; [try rewrite E|]; ring ].
Qed.

Lemma derivable_pt_lim_recovered_w (m : method) (v w : tensor) (l j : nat) :
  derivable_pt_lim (fun t => recovered_of m v (along w l t) j O) (w l O)
    (if Nat.eqb j l
     then match m with Method1 | Method2 => v l O | _ => - (2 * w l O) end
     else 0).
Proof.
  pose proof (derivable_pt_lim_along w l j (w l O)) as Hw.
  destruct m; unfold recovered_of, tmul, tsub.
  1, 2: eapply derivable_pt_lim_eq;
    [ apply (derivable_pt_lim_mult (fct_cte (v j O)) (fun t => along w l t j O));
      [apply derivable_pt_lim_const | exact Hw]
    | unfold fct_cte; rewrite along_entry;
      destruct (Nat.eqb_spec j l) as [E|_]; [try rewrite E|]; ring ].
  1, 2: eapply derivable_pt_lim_eq;
    [ apply (derivable_pt_lim_minus
               (fct_cte (v j O * v j O))
               (fun t => along w l t j O * along w l t j O));
      [ apply derivable_pt_lim_const
      | apply (derivable_pt_lim_mult (fun t => along w l t j O)
                                     (fun t => along w l t j O)); exact Hw ]
    | rewrite along_entry; destruct (Nat.eqb_spec j l) as [E|_]; [try rewrite E|]; ring ].
Qed.

Lemma sum_upto_delta_scaled (m k : nat) (c : R) (f : nat -> R) :
  (k < m)%nat ->
  sum_upto m (fun i => (if Nat.eqb i k then c else 0) * f i) = c * f k.
Proof.
  intro Hk.
  rewrite (sum_upto_ext m _ (fun i => if Nat.eqb i k then c * f i else 0)).
  - apply (sum_upto_delta m k (fun i => c * f i)). exact Hk.
  - intros i _. destruct (Nat.eqb i k); ring.
Qed.

(** The adjoints that [backward] stores are the partial derivatives of the
    objective, for every method and every leaf. *)
Lemma gradient_u_correct (n p : nat) (m : method) (X u v w : tensor) :
  is_gradient (u_rows n p m) (fun u' => objective_function n p m X u' v w)
              u (d_u (gradient n p m X u v w)).
Proof.
  intros k Hk.
  apply (derivable_pt_lim_ext
           (fun t => loss n p X (left_factor p m X (along u k t)) (recovered_of m v w)));
    [intro t; symmetry; apply objective_as_loss|].
  destruct m; simpl in Hk |- *.
  1, 3: eapply derivable_pt_lim_eq;
    [ apply (loss_derivative_left n p X (fun t => along u k t) _ (u k O)
               (fun i => if Nat.eqb i k then 1 else 0));
      intros i _; apply derivable_pt_lim_along
    | rewrite along_self, sum_upto_delta_scaled by exact Hk; ring ].
  1, 2: eapply derivable_pt_lim_eq;
    [ apply (loss_derivative_left n p X (fun t => matmul p X (along u k t)) _ (u k O)
               (fun i => X i k));
      intros i _; apply derivable_pt_lim_matmul_along; exact Hk
    | rewrite along_self; reflexivity ].
Qed.

Lemma gradient_v_correct (n p : nat) (m : method) (X u v w : tensor) :
  is_gradient p (fun v' => objective_function n p m X u v' w)
              v (d_v (gradient n p m X u v w)).
Proof.
  intros l Hl.
  apply (derivable_pt_lim_ext
           (fun t => loss n p X (left_factor p m X u) (recovered_of m (along v l t) w)));
    [intro t; symmetry; apply objective_as_loss|].
  eapply derivable_pt_lim_eq.
  - apply (loss_derivative_right n p X _ (fun t => recovered_of m (along v l t) w)).
    intros j _. apply derivable_pt_lim_recovered_v.
  - rewrite along_self, sum_upto_delta_scaled by exact Hl.
    destruct m; simpl; unfold tmul, scal; ring.
Qed.

Lemma gradient_w_correct (n p : nat) (m : method) (X u v w : tensor) :
  is_gradient p (fun w' => objective_function n p m X u v w')
              w (d_w (gradient n p m X u v w)).
Proof.
  intros l Hl.
  apply (derivable_pt_lim_ext
           (fun t => loss n p X (left_factor p m X u) (recovered_of m v (along w l t))));
    [intro t; symmetry; apply objective_as_loss|].
  eapply derivable_pt_lim_eq.
  - apply (loss_derivative_right n p X _ (fun t => recovered_of m v (along w l t))).
    intros j _. apply derivable_pt_lim_recovered_w.
  - rewrite along_self, sum_upto_delta_scaled by exact Hl.
    destruct m; simpl; unfold tmul, scal; ring.
Qed.

(** ** The gradient-descent iteration *)

Lemma gd_iteration_clears (n p : nat) (m : method) (X sv : tensor) (step : R)
      (i : N) (st : gd_state) :
  grads_clear (gd_iteration n p m X sv step i st).
Proof. unfold grads_clear. destruct m; simpl; auto. Qed.

Lemma gd_loop_clear (n p : nat) (m : method) (X sv : tensor) (step : R)
      (u v w : tensor) (k : N) :
  grads_clear (snd (gd_loop n p m X sv step k (gd_init p m sv u v w))).
Proof.
  induction k as [|k _] using N.peano_ind.
  - unfold grads_clear. simpl. auto.
  - rewrite gd_loop_succ. simpl. apply gd_iteration_clears.
Qed.

(** From clear accumulators, one pass subtracts [step_size] times the
    adjoints of the current parameters. *)
Lemma gd_iteration_params (n p : nat) (m : method) (X sv : tensor) (step : R)
      (i : N) (st : gd_state) :
  grads_clear st ->
  let st' := gd_iteration n p m X sv step i st in
  let g := gradient n p m X (gd_u st) (gd_v st) (gd_w st) in
  (forall a b, gd_u st' a b = gd_u st a b - d_u g a b * step) /\
  (forall a b, gd_v st' a b = gd_v st a b - d_v g a b * step) /\
  (forall a b, gd_w st' a b = gd_w st a b - d_w g a b * step).
Proof.
  intros [Hu [Hv Hw]]. unfold gd_iteration.
  destruct (N.modulo i (log_period m) =? 0)%N; simpl;
    rewrite Hu, Hv, Hw; unfold tsub, tscale, tadd, zeros;
    repeat split; intros; ring.
Qed.

(** C3: for each of the four methods and at every iteration [k], the
    adjoints that [backward] adds are the partial derivatives of the
    squared-Frobenius objective with respect to every entry of [u], [v] and
    [w] at the current parameters; the iteration replaces each parameter by
    [param - grad * step_size]; and the three accumulators are zero when it
    ends. *)
Theorem gd_iteration_gradient_step (n p : nat) (m : method) (X sparse_vector : tensor)
        (step_size : R) (u0 v0 w0 : tensor) (k : N) :
  let st := snd (gd_loop n p m X sparse_vector step_size k
                         (gd_init p m sparse_vector u0 v0 w0)) in
  let st' := snd (gd_loop n p m X sparse_vector step_size (N.succ k)
                          (gd_init p m sparse_vector u0 v0 w0)) in
  let g := gradient n p m X (gd_u st) (gd_v st) (gd_w st) in
  is_gradient (u_rows n p m)
              (fun u => objective_function n p m X u (gd_v st) (gd_w st))
              (gd_u st) (d_u g) /\
  is_gradient p (fun v => objective_function n p m X (gd_u st) v (gd_w st))
              (gd_v st) (d_v g) /\
  is_gradient p (fun w => objective_function n p m X (gd_u st) (gd_v st) w)
              (gd_w st) (d_w g) /\
  (forall i j, gd_u st' i j = gd_u st i j - d_u g i j * step_size) /\
  (forall i j, gd_v st' i j = gd_v st i j - d_v g i j * step_size) /\
  (forall i j, gd_w st' i j = gd_w st i j - d_w g i j * step_size) /\
  u_grad st' = zeros /\ v_grad st' = zeros /\ w_grad st' = zeros.
Proof.
  intros st st' g.
  split; [apply gradient_u_correct|].
  split; [apply gradient_v_correct|].
  split; [apply gradient_w_correct|].
  assert (Hst' : st' = gd_iteration n p m X sparse_vector step_size
                         (fst (gd_loop n p m X sparse_vector step_size k
                                       (gd_init p m sparse_vector u0 v0 w0))) st).
  { unfold st'. rewrite gd_loop_succ. reflexivity. }
  pose proof (gd_iteration_params n p m X sparse_vector step_size
                (fst (gd_loop n p m X sparse_vector step_size k
                              (gd_init p m sparse_vector u0 v0 w0))) st
                (gd_loop_clear n p m X sparse_vector step_size u0 v0 w0 k))
    as [Hu [Hv Hw]].
  rewrite Hst'.
  split; [exact Hu|]. split; [exact Hv|]. split; [exact Hw|].
  apply gd_iteration_clears.
Qed.

Lemma gd_iteration_gradient_step_witness :
  derivable_pt_lim
    (fun t => objective_function 1 1 Method1 (fun _ _ => 3)
                (along (fun _ _ => 1) 0 t) (fun _ _ => 1) (fun _ _ => 1))
    1 (-4).
Proof.
  pose proof (proj1 (gd_iteration_gradient_step 1 1 Method1 (fun _ _ => 3) zeros
                       (1 / 10000) (fun _ _ => 1) (fun _ _ => 1) (fun _ _ => 1) 0)
                    O (Nat.lt_0_succ O)) as H.
  simpl in H.
  eapply derivable_pt_lim_eq; [exact H|].
  unfold adjoint_left, scal, matmul, tsub, transpose, tmul. simpl. lra.
Defined.

(** ** Length of the loops *)

Lemma gd_iteration_traces (n p : nat) (m : method) (X sv : tensor) (step : R)
      (i : N) (st : gd_state) :
  length (sine_errors (gd_iteration n p m X sv step i st)) =
    Datatypes.S (length (sine_errors st)) /\
  length (l1 (gd_iteration n p m X sv step i st)) = Datatypes.S (length (l1 st)).
Proof.
  unfold gd_iteration.
  destruct (N.modulo i (log_period m) =? 0)%N; simpl;
    rewrite !length_app; simpl; lia.
Qed.

Lemma gd_loop_traces (n p : nat) (m : method) (X sv : tensor) (step : R)
      (k : N) (st : gd_state) :
  N.of_nat (length (sine_errors (snd (gd_loop n p m X sv step k st)))) =
    (N.of_nat (length (sine_errors st)) + k)%N /\
  N.of_nat (length (l1 (snd (gd_loop n p m X sv step k st)))) =
    (N.of_nat (length (l1 st)) + k)%N.
Proof.
  induction k as [|k [IHs IHl]] using N.peano_ind.
  - simpl. lia.
  - rewrite gd_loop_succ.
    set (c := gd_loop n p m X sv step k st) in *.
    destruct (gd_iteration_traces n p m X sv step (fst c) (snd c)) as [Hs Hl].
    cbn [snd]. rewrite Hs, Hl. lia.
Qed.

Lemma hd_loop_traces (p : nat) (S sv : tensor) (step : R) (k : N) (st : hd_state) :
  N.of_nat (length (hd_sine_errors (snd (hd_loop p S sv step k st)))) =
    (N.of_nat (length (hd_sine_errors st)) + k)%N /\
  N.of_nat (length (hd_l1 (snd (hd_loop p S sv step k st)))) =
    (N.of_nat (length (hd_l1 st)) + k)%N.
Proof.
  induction k as [|k [IHs IHl]] using N.peano_ind.
  - simpl. lia.
  - rewrite hd_loop_succ. simpl. rewrite !length_app. simpl. lia.
Qed.

Lemma gd_loop_count (n p : nat) (m : method) (X sv : tensor) (u v w : tensor)
      (epochs : N) (step : R) :
  fst (gd_loop n p m X sv step epochs (gd_init p m sv u v w)) = epochs /\
  N.of_nat (length (sine_errors
     (snd (gd_loop n p m X sv step epochs (gd_init p m sv u v w))))) = (epochs + 1)%N /\
  N.of_nat (length (l1
     (snd (gd_loop n p m X sv step epochs (gd_init p m sv u v w))))) = (epochs + 1)%N.
Proof.
  split; [apply gd_loop_index|].
  destruct (gd_loop_traces n p m X sv step epochs (gd_init p m sv u v w)) as [Hs Hl].
  change (length (sine_errors (gd_init p m sv u v w))) with 1%nat in Hs.
  change (length (l1 (gd_init p m sv u v w))) with 1%nat in Hl.
  lia.
Qed.

Lemma hd_loop_count (p : nat) (S sv : tensor) (u v : tensor) (epochs : N) (step : R) :
  fst (hd_loop p S sv step epochs (hd_init p sv u v)) = epochs /\
  N.of_nat (length (hd_sine_errors
     (snd (hd_loop p S sv step epochs (hd_init p sv u v))))) = (epochs + 1)%N /\
  N.of_nat (length (hd_l1
     (snd (hd_loop p S sv step epochs (hd_init p sv u v))))) = (epochs + 1)%N.
Proof.
  split; [apply hd_loop_index|].
  destruct (hd_loop_traces p S sv step epochs (hd_init p sv u v)) as [Hs Hl].
  change (length (hd_sine_errors (hd_init p sv u v))) with 1%nat in Hs.
  change (length (hd_l1 (hd_init p sv u v))) with 1%nat in Hl.
  lia.
Qed.

Lemma gd_run_count (n p : nat) (m : method) (X sv : tensor) (u v w : tensor)
      (epochs : N) (step : R) :
  N.of_nat (length (sine_errors (gd_run n p m X sv epochs step u v w))) = (epochs + 1)%N /\
  N.of_nat (length (l1 (gd_run n p m X sv epochs step u v w))) = (epochs + 1)%N.
Proof.
  destruct (gd_loop_count n p m X sv u v w epochs step) as [_ H]. exact H.
Qed.

Lemma hd_run_count (p : nat) (S sv : tensor) (u v : tensor) (epochs : N) (step : R) :
  N.of_nat (length (hd_sine_errors (hd_run p S sv epochs step u v))) = (epochs + 1)%N /\
  N.of_nat (length (hd_l1 (hd_run p S sv epochs step u v))) = (epochs + 1)%N.
Proof.
  destruct (hd_loop_count p S sv u v epochs step) as [_ H]. exact H.
Qed.

(** C8: whatever the data and the parameters (hence whatever the losses and
    objectives), each of the five loops is passed through exactly [epochs]
    times: the index it ends on is [epochs], and each trace holds one entry
    for the initial parameters and one per pass.  So it is for the epoch
    counts fixed in the cells: 10000, 100000, 10000, 100000 and 200000. *)
Theorem loops_run_fixed_epochs (n p : nat) (X S sparse_vector u v w : tensor) :
  (forall m epochs step_size,
     let final := gd_loop n p m X sparse_vector step_size epochs
                          (gd_init p m sparse_vector u v w) in
     fst final = epochs /\
     N.of_nat (length (sine_errors (snd final))) = (epochs + 1)%N /\
     N.of_nat (length (l1 (snd final))) = (epochs + 1)%N) /\
  (forall epochs step_size,
     let final := hd_loop p S sparse_vector step_size epochs
                          (hd_init p sparse_vector u v) in
     fst final = epochs /\
     N.of_nat (length (hd_sine_errors (snd final))) = (epochs + 1)%N /\
     N.of_nat (length (hd_l1 (snd final))) = (epochs + 1)%N) /\
  (forall m,
     let final := gd_run n p m X sparse_vector (epochs_of m) (step_size_of m) u v w in
     N.of_nat (length (sine_errors final)) = (epochs_of m + 1)%N /\
     N.of_nat (length (l1 final)) = (epochs_of m + 1)%N) /\
  (let final := hd_run p S sparse_vector hd_epochs hd_step_size u v in
   N.of_nat (length (hd_sine_errors final)) = (hd_epochs + 1)%N /\
   N.of_nat (length (hd_l1 final)) = (hd_epochs + 1)%N).
Proof.
  split; [|split; [|split]].
  - intros m epochs step_size. apply gd_loop_count.
  - intros epochs step_size. apply hd_loop_count.
  - intro m. apply gd_run_count.
  - apply hd_run_count.
Qed.

(** * Further properties of the notebook *)

(** ** Structure of the signal and of the covariance matrix *)

Lemma Q2R_one : Q2R 1 = 1.
Proof. unfold Q2R. simpl. rewrite Rinv_1. ring. Qed.

Lemma Q2R_zero : Q2R 0 = 0.
Proof. unfold Q2R. simpl. ring. Qed.

Lemma nth_blocks (a b i : nat) :
  nth i (repeat 1%Q a ++ repeat 0%Q b) 0%Q = if Nat.ltb i a then 1%Q else 0%Q.
Proof.
  revert i. induction a as [|a IH]; intro i.
  - simpl. destruct (nth_in_or_default i (repeat 0%Q b) 0%Q) as [Hin|Hd].
    + apply repeat_spec in Hin. exact Hin.
    + exact Hd.
  - destruct i as [|i]; simpl; [reflexivity|]. rewrite IH.
    change (Nat.ltb (Datatypes.S i) (Datatypes.S a)) with (Nat.ltb i a).
    reflexivity.
Qed.

(** The signal tensor is the indicator of the first [active_count] rows. *)
Lemma signal_entry (p : nat) (sparsity : Q) (i : nat) :
  from_numpy (sparse_vector p sparsity) i O =
  if Nat.ltb i (active_count p sparsity) then 1 else 0.
Proof.
  unfold from_numpy. rewrite sparse_vector_blocks, nth_blocks.
  destruct (Nat.ltb i (active_count p sparsity));
    [apply Q2R_one | apply Q2R_zero].
Qed.

Lemma active_count_le (p : nat) (sparsity : Q) : (active_count p sparsity <= p)%nat.
Proof. unfold active_count. apply Nat.le_min_l. Qed.

Lemma sum_upto_indicator (p k : nat) :
  (k <= p)%nat ->
  sum_upto p (fun i => if Nat.ltb i k then 1 else 0) = INR k.
Proof.
  induction p as [|p IH]; intro Hk.
  - replace k with O by lia. reflexivity.
  - cbn [sum_upto]. destruct (Nat.ltb_spec p k) as [Hlt|Hge].
    + assert (k = Datatypes.S p) by lia. subst k.
      rewrite (sum_upto_ext p _ (fun _ => 1)).
      * rewrite S_INR. f_equal.
        clear. induction p as [|p IH]; simpl sum_upto; [reflexivity|].
        rewrite IH, S_INR. destruct p; simpl; lra.
      * intros i Hi. destruct (Nat.ltb_spec i (Datatypes.S p)); [reflexivity | lia].
    + rewrite IH by lia. lra.
Qed.

(** The squared norm of the signal is its number of ones. *)
Lemma signal_dot_self (p : nat) (sparsity : Q) :
  dot p (from_numpy (sparse_vector p sparsity)) (from_numpy (sparse_vector p sparsity))
  = INR (active_count p sparsity).
Proof.
  unfold dot.
  rewrite (sum_upto_ext p _
             (fun i => if Nat.ltb i (active_count p sparsity) then 1 else 0)).
  - apply sum_upto_indicator, active_count_le.
  - intros i _. rewrite signal_entry.
    destruct (Nat.ltb i (active_count p sparsity)); ring.
Qed.

(** X1: [S] is [alpha] on the block of the active rows and columns, plus
    [beta] on the diagonal, and zero elsewhere. *)
Theorem covariance_S_block (p : nat) (sparsity : Q) (alpha beta : R) (i j : nat) :
  covariance_S alpha beta (from_numpy (sparse_vector p sparsity)) i j =
  (if (Nat.ltb i (active_count p sparsity) && Nat.ltb j (active_count p sparsity))%bool
   then alpha else 0) +
  (if Nat.eqb i j then beta else 0).
Proof.
  rewrite covariance_S_entry, !signal_entry.
  destruct (Nat.ltb i (active_count p sparsity));
    destruct (Nat.ltb j (active_count p sparsity));
    destruct (Nat.eqb i j); simpl; ring.
Qed.

Lemma covariance_S_apply (p : nat) (alpha beta : R) (s x : tensor) (i : nat) :
  (i < p)%nat ->
  matmul p (covariance_S alpha beta s) x i O =
  alpha * s i O * dot p s x + beta * x i O.
Proof.
  intro Hi. unfold matmul, dot.
  rewrite (sum_upto_ext p _
             (fun l => alpha * s i O * (s l O * x l O)
                       + beta * (if Nat.eqb l i then x l O else 0))).
  - rewrite sum_upto_plus, !sum_upto_scal, sum_upto_delta by exact Hi. reflexivity.
  - intros l _. rewrite covariance_S_entry, (Nat.eqb_sym i l).
    destruct (Nat.eqb l i); ring.
Qed.

(** X2: the signal is an eigenvector of [S] for the eigenvalue
    [alpha * k + beta], where [k] is its number of ones, and every column
    orthogonal to the signal is an eigenvector for [beta]. *)
Theorem covariance_S_eigen (p : nat) (sparsity : Q) (alpha beta : R) :
  let s := from_numpy (sparse_vector p sparsity) in
  let S := covariance_S alpha beta s in
  teq p 1 (matmul p S s) (scal (alpha * INR (active_count p sparsity) + beta) s) /\
  (forall x, dot p s x = 0 -> teq p 1 (matmul p S x) (scal beta x)).
Proof.
  intros s S. split.
  - intros i j Hi Hj. replace j with O by lia.
    unfold S. rewrite covariance_S_apply by exact Hi.
    unfold s at 2 3. rewrite signal_dot_self. unfold scal. fold s. ring.
  - intros x Hx i j Hi Hj. replace j with O by lia.
    unfold S. rewrite covariance_S_apply by exact Hi.
    rewrite Hx. unfold scal. ring.
Qed.

Lemma covariance_S_eigen_witness :
  teq 3 1 (matmul 3 (covariance_S 1 2 (from_numpy (sparse_vector 3 (2 # 3))))
                  (fun i _ => match i with O => 1 | 1%nat => -1 | _ => 5 end))
          (scal 2 (fun i _ => match i with O => 1 | 1%nat => -1 | _ => 5 end)).
Proof.
  apply (proj2 (covariance_S_eigen 3 (2 # 3) 1 2)).
  unfold dot. cbn [sum_upto]. rewrite !signal_entry.
  replace (active_count 3 (2 # 3)) with 2%nat by (vm_compute; reflexivity).
  simpl. ring.
Defined.

Lemma sum_upto_mask (p k : nat) (f : nat -> R) :
  (k <= p)%nat ->
  sum_upto p (fun l => f l * (if Nat.ltb l k then 1 else 0)) = sum_upto k f.
Proof.
  induction p as [|q IH]; intro Hk.
  - replace k with O by lia. reflexivity.
  - cbn [sum_upto]. destruct (Nat.ltb_spec q k) as [Hlt|Hge].
    + assert (k = Datatypes.S q) by lia. subst k. cbn [sum_upto].
      rewrite Rmult_1_r. f_equal.
      apply sum_upto_ext. intros l Hl.
      destruct (Nat.ltb_spec l (Datatypes.S q)); [ring | lia].
    + rewrite IH by lia. ring.
Qed.

(** X3: every row of [X = Z @ S] is [beta] times the row of [Z], plus, on
    the active columns, [alpha] times the sum of the active entries of that
    row of [Z]. *)
Theorem data_X_rows (p : nat) (sparsity : Q) (alpha beta : R) (Z : tensor) (i j : nat) :
  (j < p)%nat ->
  data_X p Z (covariance_S alpha beta (from_numpy (sparse_vector p sparsity))) i j =
  (if Nat.ltb j (active_count p sparsity)
   then alpha * sum_upto (active_count p sparsity) (fun l => Z i l) else 0)
  + beta * Z i j.
Proof.
  intro Hj. unfold data_X, matmul.
  rewrite (sum_upto_ext p _
             (fun l => (alpha * (if Nat.ltb j (active_count p sparsity) then 1 else 0))
                       * (Z i l * (if Nat.ltb l (active_count p sparsity) then 1 else 0))
                       + beta * (if Nat.eqb l j then Z i l else 0))).
  - rewrite sum_upto_plus, !sum_upto_scal, sum_upto_delta by exact Hj.
    rewrite (sum_upto_mask p _ (fun l => Z i l)) by apply active_count_le.
    destruct (Nat.ltb j (active_count p sparsity)); ring.
  - intros l _. rewrite covariance_S_entry, !signal_entry.
    destruct (Nat.eqb l j); ring.
Qed.

Lemma data_X_rows_witness :
  data_X 3 (fun i j => INR (i + j))
         (covariance_S 1 2 (from_numpy (sparse_vector 3 (2 # 3)))) 1%nat O =
  (if Nat.ltb 0 (active_count 3 (2 # 3))
   then 1 * sum_upto (active_count 3 (2 # 3)) (fun l => INR (1 + l)) else 0)
  + 2 * INR (1 + 0).
Proof.
  apply (data_X_rows 3 (2 # 3) 1 2 (fun i j => INR (i + j)) 1%nat O). lia.
Defined.

Lemma Q_of_nat_nonneg (p : nat) : (0 <= Q_of_nat p)%Q.
Proof.
  unfold Q_of_nat. change 0%Q with (inject_Z 0). rewrite <- Zle_Qle. lia.
Qed.

Lemma sparse_vector_all_zero (p : nat) (sparsity : Q) :
  (sparsity <= 0)%Q -> sparse_vector p sparsity = repeat 0%Q p.
Proof.
  intro H. rewrite sparse_vector_blocks.
  assert (Hk : active_count p sparsity = O).
  { unfold active_count.
    assert (Hc : (Qceiling (Q_of_nat p * sparsity) <= 0)%Z).
    { assert (Hle : (Q_of_nat p * sparsity <= inject_Z 0)%Q).
      { pose proof (Qmult_le_compat_r sparsity 0 (Q_of_nat p) H (Q_of_nat_nonneg p))
          as Hm.
        rewrite Qmult_0_l, Qmult_comm in Hm. exact Hm. }
      apply Qceiling_resp_le in Hle. rewrite Qceiling_Z in Hle. exact Hle. }
    replace (Z.to_nat (Qceiling (Q_of_nat p * sparsity))) with O by lia.
    apply Nat.min_0_r. }
  rewrite Hk, Nat.sub_0_r. reflexivity.
Qed.

Lemma sparse_vector_all_one (p : nat) (sparsity : Q) :
  (1 <= sparsity)%Q -> sparse_vector p sparsity = repeat 1%Q p.
Proof.
  intro H. rewrite sparse_vector_blocks.
  assert (Hk : active_count p sparsity = p).
  { unfold active_count.
    assert (Hc : (Z.of_nat p <= Qceiling (Q_of_nat p * sparsity))%Z).
    { assert (Hle : (inject_Z (Z.of_nat p) <= Q_of_nat p * sparsity)%Q).
      { pose proof (Qmult_le_compat_r 1 sparsity (Q_of_nat p) H (Q_of_nat_nonneg p))
          as Hm.
        rewrite Qmult_1_l, Qmult_comm in Hm. exact Hm. }
      apply Qceiling_resp_le in Hle. rewrite Qceiling_Z in Hle. exact Hle. }
    lia. }
  rewrite Hk, Nat.sub_diag, app_nil_r. reflexivity.
Qed.

(** X4: a sparsity that is not positive gives the zero vector, and a
    sparsity of 1 or more gives the vector of ones. *)
Theorem sparse_vector_extremes (p : nat) (sparsity : Q) :
  ((sparsity <= 0)%Q -> sparse_vector p sparsity = repeat 0%Q p) /\
  ((1 <= sparsity)%Q -> sparse_vector p sparsity = repeat 1%Q p).
Proof.
  split; [apply sparse_vector_all_zero | apply sparse_vector_all_one].
Qed.

Lemma sparse_vector_extremes_witness :
  sparse_vector 4 (-1 # 2) = repeat 0%Q 4 /\ sparse_vector 4 (3 # 2) = repeat 1%Q 4.
Proof.
  split.
  - apply (proj1 (sparse_vector_extremes 4 (-1 # 2))). discriminate.
  - apply (proj2 (sparse_vector_extremes 4 (3 # 2))). discriminate.
Defined.

(** ** Values of the sine error *)

Lemma tsum_tmul_dot (p : nat) (a b : tensor) : tsum p 1 (tmul a b) = dot p a b.
Proof. rewrite tsum_col. reflexivity. Qed.

Lemma dot_self_pos (p : nat) (x : tensor) : nonzero p x -> 0 < dot p x x.
Proof.
  intros [i [Hi Hx]]. unfold dot.
  apply (sum_upto_pos p _ i); [intros; nra | exact Hi | nra].
Qed.

Lemma zero_col_not_nonzero (p : nat) (x : tensor) : zero_col p x -> ~ nonzero p x.
Proof. intros Hz [i [Hi Hx]]. apply Hx, Hz, Hi. Qed.

Lemma cosine_error_zero_denominator (p : nat) (r s : tensor) :
  zero_col p r \/ zero_col p s -> cosine_error p r s = None.
Proof.
  intro H.
  assert (Hd : tnorm p 1 r * tnorm p 1 s = 0).
  { destruct H as [H|H]; rewrite (tnorm_zero p _ H); ring. }
  unfold cosine_error, div_opt.
  destruct (Req_dec_T (tnorm p 1 r * tnorm p 1 s) 0); [reflexivity | contradiction].
Qed.

(** The value of the sine error on non-zero columns. *)
Lemma sine_error_formula (p : nat) (r s : tensor) :
  nonzero p r -> nonzero p s ->
  sine_error p r s =
  Some (sqrt (1 - (dot p r s) ^ 2 / (dot p r r * dot p s s))).
Proof.
  intros Hr Hs.
  destruct (cosine_error_defined p r s Hr Hs) as [c [Hc [E L]]].
  pose proof (tnorm_pos p r Hr) as Hnr.
  pose proof (tnorm_pos p s Hs) as Hns.
  unfold sine_error. rewrite Hc. unfold obind, pow_half.
  assert (H0 : 0 <= c ^ 2) by apply pow2_ge_0.
  destruct (Rlt_dec (1 - c ^ 2) 0) as [Hlt|_]; [lra|].
  do 3 f_equal. rewrite E, tsum_tmul_dot.
  assert (Er : dot p r r = tnorm p 1 r * tnorm p 1 r)
    by (symmetry; apply tnorm_sq).
  assert (Es : dot p s s = tnorm p 1 s * tnorm p 1 s)
    by (symmetry; apply tnorm_sq).
  rewrite Er, Es. field. split; lra.
Qed.

(** X5: in exact arithmetic, the sine error is not a number exactly when the
    recovered vector or the signal vector is zero.  (On floats rounding adds
    other cases: see [sine_error_float_counterexample].) *)
Theorem sine_error_undefined_iff (p : nat) (recovered signal : tensor) :
  sine_error p recovered signal = None <->
  zero_col p recovered \/ zero_col p signal.
Proof.
  split.
  - intro H.
    destruct (zero_or_nonzero p recovered) as [Hr|Hr]; [left; exact Hr|].
    destruct (zero_or_nonzero p signal) as [Hs|Hs]; [right; exact Hs|].
    rewrite (sine_error_formula p recovered signal Hr Hs) in H. discriminate.
  - intro H. unfold sine_error.
    rewrite (cosine_error_zero_denominator p recovered signal H). reflexivity.
Qed.

Lemma sine_error_undefined_iff_witness :
  sine_error 2 (fun _ _ => 1) zeros = None.
Proof.
  apply (proj2 (sine_error_undefined_iff 2 (fun _ _ => 1) zeros)).
  right. intros i _. reflexivity.
Defined.

(** X6: when [p * sparsity] is not positive the signal is zero, and the sine
    error of every recovered vector against it is not a number. *)
Theorem sine_error_without_signal (p : nat) (sparsity : Q) (recovered : tensor) :
  (sparsity <= 0)%Q ->
  zero_col p (from_numpy (sparse_vector p sparsity)) /\
  sine_error p recovered (from_numpy (sparse_vector p sparsity)) = None.
Proof.
  intro H.
  assert (Hz : zero_col p (from_numpy (sparse_vector p sparsity))).
  { intros i _. unfold from_numpy.
    rewrite (sparse_vector_all_zero p sparsity H).
    destruct (nth_in_or_default i (repeat 0%Q p) 0%Q) as [Hin|Hd].
    - apply repeat_spec in Hin. rewrite Hin. apply Q2R_zero.
    - rewrite Hd. apply Q2R_zero. }
  split; [exact Hz|].
  unfold sine_error.
  rewrite (cosine_error_zero_denominator p recovered _ (or_intror Hz)). reflexivity.
Qed.

Lemma sine_error_without_signal_witness :
  sine_error 3 (fun _ _ => 1) (from_numpy (sparse_vector 3 0)) = None.
Proof.
  apply (sine_error_without_signal 3 0 (fun _ _ => 1)). discriminate.
Defined.

(** X7: in exact arithmetic, a recovered vector that is a non-zero multiple
    of the signal, of either sign, has sine error 0. *)
Theorem sine_error_aligned (p : nat) (c : R) (signal : tensor) :
  c <> 0 -> nonzero p signal ->
  sine_error p (scal c signal) signal = Some 0.
Proof.
  intros Hc Hs.
  assert (Hcs : nonzero p (scal c signal)).
  { destruct Hs as [i [Hi Hx]]. exists i. split; [exact Hi|].
    unfold scal. apply Rmult_integral_contrapositive_currified; assumption. }
  rewrite (sine_error_formula p _ _ Hcs Hs).
  pose proof (dot_self_pos p signal Hs) as HD.
  assert (E1 : dot p (scal c signal) signal = c * dot p signal signal).
  { unfold dot. rewrite <- sum_upto_scal. apply sum_upto_ext.
    intros; unfold scal; ring. }
  assert (E2 : dot p (scal c signal) (scal c signal) = c * c * dot p signal signal).
  { unfold dot. rewrite <- sum_upto_scal. apply sum_upto_ext.
    intros; unfold scal; ring. }
  rewrite E1, E2.
  replace (1 - (c * dot p signal signal) ^ 2 /
               (c * c * dot p signal signal * dot p signal signal))
    with 0 by (field; split; lra).
  f_equal. apply sqrt_0.
Qed.

Lemma sine_error_aligned_witness :
  sine_error 2 (scal (-2) (fun i _ => INR i)) (fun i _ => INR i) = Some 0.
Proof.
  apply (sine_error_aligned 2 (-2) (fun i _ => INR i)).
  - lra.
  - exists 1%nat. split; [lia | simpl; lra].
Defined.

(** X8: in exact arithmetic, a non-zero recovered vector orthogonal to the
    non-zero signal has sine error 1. *)
Theorem sine_error_orthogonal (p : nat) (recovered signal : tensor) :
  nonzero p recovered -> nonzero p signal ->
  tsum p 1 (tmul recovered signal) = 0 ->
  sine_error p recovered signal = Some 1.
Proof.
  intros Hr Hs H0.
  rewrite (sine_error_formula p _ _ Hr Hs).
  rewrite tsum_tmul_dot in H0. rewrite H0.
  pose proof (dot_self_pos p recovered Hr).
  pose proof (dot_self_pos p signal Hs).
  replace (1 - 0 ^ 2 / (dot p recovered recovered * dot p signal signal))
    with 1 by (field; split; lra).
  f_equal. apply sqrt_1.
Qed.

Lemma sine_error_orthogonal_witness :
  sine_error 2 (fun i _ => INR i) (fun i _ => 1 - INR i) = Some 1.
Proof.
  apply (sine_error_orthogonal 2 (fun i _ => INR i) (fun i _ => 1 - INR i)).
  - exists 1%nat. split; [lia | simpl; lra].
  - exists 0%nat. split; [lia | simpl; lra].
  - unfold tsum, tmul. simpl. ring.
Defined.

(** ** The two norms of the recovered vector *)

Lemma tnorm1_nonneg (p : nat) (x : tensor) : 0 <= tnorm1 p x.
Proof. unfold tnorm1. apply sum_upto_nonneg. intros; apply Rabs_pos. Qed.

Lemma sum_abs_sq_ge (p : nat) (f : nat -> R) :
  sum_upto p (fun i => f i * f i) <= (sum_upto p (fun i => Rabs (f i))) ^ 2.
Proof.
  induction p as [|p IH]; simpl.
  - lra.
  - assert (Ha : 0 <= sum_upto p (fun i => Rabs (f i)))
      by (apply sum_upto_nonneg; intros; apply Rabs_pos).
    pose proof (Rabs_pos (f p)) as Hb.
    assert (Hsq : Rabs (f p) * Rabs (f p) = f p * f p).
    { replace (Rabs (f p) * Rabs (f p)) with (Rsqr (Rabs (f p))) by reflexivity.
      rewrite <- Rsqr_abs. reflexivity. }
    simpl in IH. nra.
Qed.

Lemma sum_upto_one (p : nat) : sum_upto p (fun _ => 1 * 1) = INR p.
Proof.
  induction p as [|p IH]; [reflexivity|].
  cbn [sum_upto]. rewrite IH, S_INR. ring.
Qed.

Lemma tnorm_le_tnorm1 (p : nat) (x : tensor) : tnorm p 1 x <= tnorm1 p x.
Proof.
  pose proof (tnorm1_nonneg p x) as H1.
  unfold tnorm. rewrite tnorm_col_sq.
  rewrite <- (sqrt_pow2 (tnorm1 p x)) by exact H1.
  apply sqrt_le_1_alt. apply (sum_abs_sq_ge p (fun i => x i O)).
Qed.

Lemma tnorm1_le_sqrt_tnorm (p : nat) (x : tensor) :
  tnorm1 p x <= sqrt (INR p) * tnorm p 1 x.
Proof.
  pose proof (tnorm1_nonneg p x) as H1.
  unfold tnorm. rewrite tnorm_col_sq, <- sqrt_mult_alt by apply pos_INR.
  rewrite <- (sqrt_pow2 (tnorm1 p x)) at 1 by exact H1.
  apply sqrt_le_1_alt.
  pose proof (sum_upto_cauchy_schwarz p (fun i => Rabs (x i O)) (fun _ => 1)) as CS.
  rewrite sum_upto_one in CS.
  rewrite (sum_upto_ext p (fun i => Rabs (x i O) * 1) (fun i => Rabs (x i O))) in CS
    by (intros; ring).
  rewrite (sum_upto_ext p (fun i => Rabs (x i O) * Rabs (x i O))
             (fun i => x i O * x i O)) in CS.
  - unfold tnorm1. lra.
  - intros i _. replace (Rabs (x i O) * Rabs (x i O)) with (Rsqr (Rabs (x i O)))
      by reflexivity.
    rewrite <- Rsqr_abs. reflexivity.
Qed.

(** X9: in exact arithmetic, on a column of [p] rows the l1 norm lies
    between the l2 norm and [sqrt p] times the l2 norm. *)
Theorem tnorm1_between (p : nat) (x : tensor) :
  tnorm p 1 x <= tnorm1 p x <= sqrt (INR p) * tnorm p 1 x.
Proof.
  split; [apply tnorm_le_tnorm1 | apply tnorm1_le_sqrt_tnorm].
Qed.

(** ** The Hadamard loop *)

Lemma cosine_error_ext (p : nat) (r r' s : tensor) :
  (forall i, (i < p)%nat -> r i O = r' i O) ->
  cosine_error p r s = cosine_error p r' s.
Proof.
  intro H. unfold cosine_error, tnorm.
  rewrite !tsum_col.
  rewrite (sum_upto_ext p (fun i => tmul r s i O) (fun i => tmul r' s i O))
    by (intros i Hi; unfold tmul; rewrite (H i Hi); reflexivity).
  rewrite (sum_upto_ext p (fun i => tmul r r i O) (fun i => tmul r' r' i O))
    by (intros i Hi; unfold tmul; rewrite (H i Hi); reflexivity).
  reflexivity.
Qed.

Lemma sine_error_ext (p : nat) (r r' s : tensor) :
  (forall i, (i < p)%nat -> r i O = r' i O) ->
  sine_error p r s = sine_error p r' s.
Proof.
  intro H. unfold sine_error. rewrite (cosine_error_ext p r r' s H). reflexivity.
Qed.

(** Scaling the recovered vector never changes the sine error, defined or
    not. *)
Lemma sine_error_scal (p : nat) (c : R) (r s : tensor) :
  c <> 0 -> sine_error p (scal c r) s = sine_error p r s.
Proof.
  intro Hc.
  destruct (zero_or_nonzero p s) as [Hs|Hs].
  { unfold sine_error.
    rewrite !(cosine_error_zero_denominator p _ s (or_intror Hs)). reflexivity. }
  destruct (zero_or_nonzero p r) as [Hr|Hr].
  { assert (Hcr : zero_col p (scal c r))
      by (intros i Hi; unfold scal; rewrite (Hr i Hi); ring).
    unfold sine_error.
    rewrite (cosine_error_zero_denominator p _ s (or_introl Hcr)).
    rewrite (cosine_error_zero_denominator p _ s (or_introl Hr)). reflexivity. }
  assert (Hcr : nonzero p (scal c r)).
  { destruct Hr as [i [Hi Hx]]. exists i. split; [exact Hi|].
    unfold scal. apply Rmult_integral_contrapositive_currified; assumption. }
  rewrite (sine_error_formula p _ _ Hcr Hs), (sine_error_formula p _ _ Hr Hs).
  pose proof (dot_self_pos p r Hr). pose proof (dot_self_pos p s Hs).
  assert (E1 : dot p (scal c r) s = c * dot p r s).
  { unfold dot. rewrite <- sum_upto_scal. apply sum_upto_ext.
    intros; unfold scal; ring. }
  assert (E2 : dot p (scal c r) (scal c r) = c * c * dot p r r).
  { unfold dot. rewrite <- sum_upto_scal. apply sum_upto_ext.
    intros; unfold scal; ring. }
  rewrite E1, E2. do 3 f_equal. field. repeat split; lra.
Qed.

(** X10: in exact arithmetic, a renormalisation divides the product [u * v]
    by its norm, so the recovered vector keeps its direction: its sine error
    against any signal is the one before the renormalisation. *)
Theorem renormalize_keeps_direction (p : nat) (u v u' v' : tensor) :
  renormalize p u v = Some (u', v') ->
  (forall i, tmul u' v' i O = tmul u v i O / tnorm p 1 (tmul u v)) /\
  (forall signal, sine_error p (tmul u' v') signal = sine_error p (tmul u v) signal).
Proof.
  intro H.
  destruct (Req_dec (tnorm p 1 (tmul u v)) 0) as [E|E].
  { rewrite (renormalize_undefined p u v E) in H. discriminate. }
  rewrite (renormalize_defined p u v E) in H. injection H as <- <-.
  set (N := tnorm p 1 (tmul u v)) in *.
  assert (HN : 0 < N)
    by (pose proof (tnorm_nonneg p 1 (tmul u v)) as Hge; fold N in Hge; lra).
  assert (Hd : sqrt N <> 0) by (intro Z; apply sqrt_eq_0 in Z; lra).
  assert (Hentry : forall i, tmul (fun i j => u i j / sqrt N)
                                  (fun i j => v i j / sqrt N) i O
                             = tmul u v i O / N).
  { intro i. unfold tmul.
    replace N with (sqrt N * sqrt N) at 3 by (apply sqrt_sqrt; lra).
    field. exact Hd. }
  split; [exact Hentry|].
  intro signal.
  rewrite (sine_error_ext p _ (scal (/ N) (tmul u v)) signal).
  - apply sine_error_scal. apply Rinv_neq_0_compat. lra.
  - intros i _. rewrite Hentry. unfold scal, Rdiv. ring.
Qed.

Lemma renormalize_keeps_direction_witness :
  sine_error 2
    (tmul (fun _ _ => 2 / sqrt (tnorm 2 1 (tmul (fun _ _ => 2) (fun _ _ => 3))))
          (fun _ _ => 3 / sqrt (tnorm 2 1 (tmul (fun _ _ => 2) (fun _ _ => 3)))))
    (fun i _ => INR i) =
  sine_error 2 (tmul (fun _ _ => 2) (fun _ _ => 3)) (fun i _ => INR i).
Proof.
  assert (Hne : tnorm 2 1 (tmul (fun _ _ => 2) (fun _ _ => 3)) <> 0).
  { apply nonzero_tnorm. exists 0%nat. split; [lia | unfold tmul; lra]. }
  apply (proj2 (renormalize_keeps_direction 2 (fun _ _ => 2) (fun _ _ => 3) _ _
                  (renormalize_defined 2 _ _ Hne))).
Defined.

(** X11: in exact arithmetic, renormalising again changes nothing: the
    factors returned by a renormalisation are returned unchanged by the next
    one. *)
Theorem renormalize_idempotent (p : nat) (u v u1 v1 : tensor) :
  renormalize p u v = Some (u1, v1) ->
  exists u2 v2, renormalize p u1 v1 = Some (u2, v2) /\
                (forall i j, u2 i j = u1 i j) /\ (forall i j, v2 i j = v1 i j).
Proof.
  intro H. pose proof (renormalize_some_unit p u v u1 v1 H) as H1.
  assert (Hne : tnorm p 1 (tmul u1 v1) <> 0) by lra.
  do 2 eexists. split; [apply renormalize_defined; exact Hne|].
  rewrite H1, sqrt_1. split; intros i j; field.
Qed.

Lemma renormalize_idempotent_witness :
  exists u2 v2,
    renormalize 2
      (fun _ _ => 2 / sqrt (tnorm 2 1 (tmul (fun _ _ => 2) (fun _ _ => 3))))
      (fun _ _ => 3 / sqrt (tnorm 2 1 (tmul (fun _ _ => 2) (fun _ _ => 3))))
    = Some (u2, v2) /\
    (forall i j, u2 i j = 2 / sqrt (tnorm 2 1 (tmul (fun _ _ => 2) (fun _ _ => 3)))) /\
    (forall i j, v2 i j = 3 / sqrt (tnorm 2 1 (tmul (fun _ _ => 2) (fun _ _ => 3)))).
Proof.
  assert (Hne : tnorm 2 1 (tmul (fun _ _ => 2) (fun _ _ => 3)) <> 0).
  { apply nonzero_tnorm. exists 0%nat. split; [lia | unfold tmul; lra]. }
  apply (renormalize_idempotent 2 (fun _ _ => 2) (fun _ _ => 3) _ _
           (renormalize_defined 2 _ _ Hne)).
Defined.

(** The metrics of a state whose product has unit norm. *)
Lemma hd_metrics_l1_bounds (p : nat) (sv : tensor) (uv : option (tensor * tensor)) (l : R) :
  (forall u v, uv = Some (u, v) -> tnorm p 1 (tmul u v) = 1) ->
  snd (hd_metrics p sv uv) = Some l -> 1 <= l <= sqrt (INR p).
Proof.
  intros Hunit H. destruct uv as [[u v]|]; simpl in H; [|discriminate].
  injection H as <-.
  pose proof (Hunit u v eq_refl) as H1.
  pose proof (tnorm_le_tnorm1 p (tmul u v)) as Hlo.
  pose proof (tnorm1_le_sqrt_tnorm p (tmul u v)) as Hhi.
  rewrite H1 in Hlo, Hhi. lra.
Qed.

(** X12: in exact arithmetic and for [p >= 1], every l1 norm that the
    Hadamard loop records as a number lies between 1 and [sqrt p], because
    the recorded vector has l2 norm 1. *)
Theorem hadamard_l1_trace_bounds (p : nat) (S sparse_vector : tensor) (step_size : R)
        (u v : tensor) (epochs : N) (l : R) :
  (0 < p)%nat ->
  In (Some l) (hd_l1 (snd (hd_loop p S sparse_vector step_size epochs
                                   (hd_init p sparse_vector u v)))) ->
  1 <= l <= sqrt (INR p).
Proof.
  intros _. revert l. induction epochs as [|k IH] using N.peano_ind; intros l Hin.
  - simpl in Hin. destruct Hin as [Hin|[]].
    apply (hd_metrics_l1_bounds p sparse_vector (renormalize p u v) l);
      [|exact Hin].
    intros u' v' E. eapply renormalize_some_unit; exact E.
  - rewrite hd_loop_succ in Hin. cbn [snd hd_iteration hd_l1] in Hin.
    apply in_app_or in Hin. destruct Hin as [Hin|[Hin|[]]]; [apply IH; exact Hin|].
    eapply hd_metrics_l1_bounds; [|exact Hin].
    intros u' v' E.
    destruct (hd_uv (snd (hd_loop p S sparse_vector step_size k
                                  (hd_init p sparse_vector u v)))) as [[u0 v0]|];
      [|discriminate].
    unfold hadamard_step in E. eapply renormalize_some_unit; exact E.
Qed.

Lemma hadamard_l1_trace_bounds_witness :
  1 <= tnorm1 2
         (tmul (fun _ _ => 2 / sqrt (tnorm 2 1 (tmul (fun _ _ => 2) (fun _ _ => 3))))
               (fun _ _ => 3 / sqrt (tnorm 2 1 (tmul (fun _ _ => 2) (fun _ _ => 3)))))
    <= sqrt (INR 2).
Proof.
  assert (Hne : tnorm 2 1 (tmul (fun _ _ => 2) (fun _ _ => 3)) <> 0).
  { apply nonzero_tnorm. exists 0%nat. split; [lia | unfold tmul; lra]. }
  apply (hadamard_l1_trace_bounds 2 identity (fun _ _ => 1) (1 / 100000)
           (fun _ _ => 2) (fun _ _ => 3) 0); [lia|].
  cbn [hd_loop N.iter snd hd_init hd_l1 app].
  rewrite (renormalize_defined 2 _ _ Hne). left. reflexivity.
Defined.

(** X13: for [p >= 1], once the product [u * v] is zero, nothing recorded
    or printed by the Hadamard cell is a number: the state stays non-finite
    through every pass, and so do both traces and every printed objective. *)
Theorem hadamard_zero_product_propagates (p : nat) (S sparse_vector : tensor)
        (step_size : R) (u v : tensor) (epochs : N) :
  (0 < p)%nat ->
  zero_col p (tmul u v) ->
  let st := hd_run p S sparse_vector epochs step_size u v in
  hd_uv st = None /\
  Forall (fun e => e = None) (hd_sine_errors st) /\
  Forall (fun e => e = None) (hd_l1 st) /\
  Forall (fun e => snd e = None) (hd_printed st).
Proof.
  intros _ Hz st.
  assert (Hinit : renormalize p u v = None)
    by (apply renormalize_undefined, tnorm_zero; exact Hz).
  assert (Hloop : forall k,
             let s := snd (hd_loop p S sparse_vector step_size k
                                   (hd_init p sparse_vector u v)) in
             hd_uv s = None /\
             Forall (fun e => e = None) (hd_sine_errors s) /\
             Forall (fun e => e = None) (hd_l1 s) /\
             Forall (fun e => snd e = None) (hd_printed s)).
  { intro k. induction k as [|k IH] using N.peano_ind.
    - simpl. rewrite Hinit. simpl. repeat split; repeat constructor.
    - rewrite hd_loop_succ. cbn [snd].
      destruct IH as [Huv [Hs [Hl Hp]]].
      unfold hd_iteration. rewrite Huv. cbn.
      repeat split.
      + apply Forall_app. split; [exact Hs | repeat constructor].
      + apply Forall_app. split; [exact Hl | repeat constructor].
      + destruct (N.modulo _ 1000 =? 0)%N; [|exact Hp].
        apply Forall_app. split; [exact Hp | repeat constructor]. }
  destruct (Hloop epochs) as [Huv [Hs [Hl Hp]]].
  unfold st, hd_run. cbn [hd_uv hd_sine_errors hd_l1 hd_printed].
  repeat split; try assumption.
  apply Forall_app. split; [exact Hp|].
  rewrite Huv. repeat constructor.
Qed.

Lemma hadamard_zero_product_propagates_witness :
  hd_uv (hd_run 2 identity (fun _ _ => 1) 3 (1 / 100000) zeros (fun _ _ => 1)) = None.
Proof.
  apply (hadamard_zero_product_propagates 2 identity (fun _ _ => 1) (1 / 100000)
           zeros (fun _ _ => 1) 3); [lia|].
  intros i _. unfold tmul, zeros. ring.
Defined.

(** ** The objective of the Hadamard cell *)

Lemma hadamard_objective_sum (p : nat) (S u v : tensor) :
  hadamard_objective p S u v =
  sum_upto p (fun j => sum_upto p (fun i => tmul u v i O * S i j) * tmul u v j O).
Proof. reflexivity. Qed.

(** Derivative of a quadratic form along a curve. *)
Lemma quadratic_form_derivative (p : nat) (S : tensor) (r : R -> nat -> R)
      (t0 : R) (r' : nat -> R) :
  (forall i, (i < p)%nat -> derivable_pt_lim (fun t => r t i) t0 (r' i)) ->
  derivable_pt_lim
    (fun t => sum_upto p (fun j => sum_upto p (fun i => r t i * S i j) * r t j)) t0
    (sum_upto p (fun j => sum_upto p (fun i => r' i * S i j) * r t0 j
                          + sum_upto p (fun i => r t0 i * S i j) * r' j)).
Proof.
  intro Hr.
  apply (derivable_pt_lim_sum_upto p
           (fun j t => sum_upto p (fun i => r t i * S i j) * r t j)).
  intros j Hj.
  apply (derivable_pt_lim_mult (fun t => sum_upto p (fun i => r t i * S i j))
                               (fun t => r t j)).
  - apply (derivable_pt_lim_sum_upto p (fun i t => r t i * S i j)).
    intros i Hi. eapply derivable_pt_lim_eq.
    + apply (derivable_pt_lim_mult (fun t => r t i) (fct_cte (S i j)));
        [apply Hr; exact Hi | apply derivable_pt_lim_const].
    + unfold fct_cte. ring.
  - apply Hr; exact Hj.
Qed.

(** The derivative of [r.T @ S @ r] when only entry [k] of [r] moves, at
    speed [c]. *)
Lemma quadratic_form_partial (p : nat) (S : tensor) (r : nat -> R) (k : nat) (c : R) :
  (k < p)%nat ->
  sum_upto p (fun j =>
     sum_upto p (fun i => (if Nat.eqb i k then c else 0) * S i j) * r j
     + sum_upto p (fun i => r i * S i j) * (if Nat.eqb j k then c else 0)) =
  c * sum_upto p (fun l => (S k l + S l k) * r l).
Proof.
  intro Hk. rewrite sum_upto_plus.
  rewrite (sum_upto_ext p
             (fun j => sum_upto p (fun i => (if Nat.eqb i k then c else 0) * S i j) * r j)
             (fun j => c * (S k j * r j))).
  2:{ intros j _. rewrite (sum_upto_delta_scaled p k c (fun i => S i j)) by exact Hk.
      ring. }
  rewrite (sum_upto_ext p
             (fun j => sum_upto p (fun i => r i * S i j) * (if Nat.eqb j k then c else 0))
             (fun j => (if Nat.eqb j k then c else 0)
                       * sum_upto p (fun i => r i * S i j)))
    by (intros; ring).
  rewrite (sum_upto_delta_scaled p k c (fun j => sum_upto p (fun i => r i * S i j)))
    by exact Hk.
  rewrite !sum_upto_scal, <- Rmult_plus_distr_l. f_equal.
  rewrite <- sum_upto_plus. apply sum_upto_ext. intros; ring.
Qed.

(** X14: the directions [du] and [dv] of the ascent step are the gradients
    of the printed objective [(u * v).T @ S @ (u * v)] with respect to [u] and
    to [v], for any matrix [S]; the step adds [step_size] times them. *)
Theorem ascent_follows_gradient (p : nat) (S : tensor) (step_size : R) (u v : tensor) :
  let du := tmul v (matmul p (tadd S (transpose S)) (tmul u v)) in
  let dv := tmul u (matmul p (tadd S (transpose S)) (tmul u v)) in
  is_gradient p (fun u' => hadamard_objective p S u' v) u du /\
  is_gradient p (fun v' => hadamard_objective p S u v') v dv /\
  (forall i j, fst (ascent p S step_size u v) i j = u i j + du i j * step_size) /\
  (forall i j, snd (ascent p S step_size u v) i j = v i j + dv i j * step_size).
Proof.
  intros du dv. split; [|split; [|split; intros; reflexivity]].
  - intros k Hk.
    apply (derivable_pt_lim_ext
             (fun t => sum_upto p (fun j =>
                sum_upto p (fun i => (along u k t i O * v i O) * S i j)
                * (along u k t j O * v j O))));
      [intro t; symmetry; apply hadamard_objective_sum|].
    eapply derivable_pt_lim_eq.
    + apply (quadratic_form_derivative p S (fun t i => along u k t i O * v i O)
               (u k O) (fun i => if Nat.eqb i k then v k O else 0)).
      intros i _. eapply derivable_pt_lim_eq.
      * apply (derivable_pt_lim_mult (fun t => along u k t i O) (fct_cte (v i O)));
          [apply derivable_pt_lim_along | apply derivable_pt_lim_const].
      * unfold fct_cte. destruct (Nat.eqb_spec i k) as [E|_]; [rewrite E|]; ring.
    + rewrite along_self.
      rewrite (quadratic_form_partial p S (fun i => u i O * v i O) k (v k O) Hk).
      unfold du, tmul, matmul, tadd, transpose. reflexivity.
  - intros k Hk.
    apply (derivable_pt_lim_ext
             (fun t => sum_upto p (fun j =>
                sum_upto p (fun i => (u i O * along v k t i O) * S i j)
                * (u j O * along v k t j O))));
      [intro t; symmetry; apply hadamard_objective_sum|].
    eapply derivable_pt_lim_eq.
    + apply (quadratic_form_derivative p S (fun t i => u i O * along v k t i O)
               (v k O) (fun i => if Nat.eqb i k then u k O else 0)).
      intros i _. eapply derivable_pt_lim_eq.
      * apply (derivable_pt_lim_mult (fct_cte (u i O)) (fun t => along v k t i O));
          [apply derivable_pt_lim_const | apply derivable_pt_lim_along].
      * unfold fct_cte. destruct (Nat.eqb_spec i k) as [E|_]; [rewrite E|]; ring.
    + rewrite along_self.
      rewrite (quadratic_form_partial p S (fun i => u i O * v i O) k (u k O) Hk).
      unfold dv, tmul, matmul, tadd, transpose. reflexivity.
Qed.

Lemma ascent_follows_gradient_witness :
  derivable_pt_lim
    (fun t => hadamard_objective 1 (fun _ _ => 3) (along (fun _ _ => 1) 0 t)
                                 (fun _ _ => 2))
    1 24.
Proof.
  pose proof (proj1 (ascent_follows_gradient 1 (fun _ _ => 3) (1 / 100000)
                       (fun _ _ => 1) (fun _ _ => 2))
                    O (Nat.lt_0_succ O)) as H.
  eapply derivable_pt_lim_eq; [exact H|].
  unfold tmul, matmul, tadd, transpose. simpl. lra.
Defined.

Lemma hadamard_objective_covariance (p : nat) (alpha beta : R) (s u v : tensor) :
  hadamard_objective p (covariance_S alpha beta s) u v =
  alpha * (dot p s (tmul u v)) ^ 2 + beta * dot p (tmul u v) (tmul u v).
Proof.
  unfold hadamard_objective. apply covariance_S_quadratic_form.
Qed.

Lemma dot_comm (p : nat) (a b : tensor) : dot p a b = dot p b a.
Proof. unfold dot. apply sum_upto_ext. intros; ring. Qed.

Lemma dot_cauchy_schwarz (p : nat) (a b : tensor) :
  (dot p a b) ^ 2 <= dot p a a * dot p b b.
Proof. apply (sum_upto_cauchy_schwarz p (fun i => a i O) (fun i => b i O)). Qed.

Lemma sqrt_sq_id (x : R) : 0 <= x -> sqrt x ^ 2 = x.
Proof. intro H. rewrite <- Rsqr_pow2. apply Rsqr_sqrt. exact H. Qed.

(** X15: in exact arithmetic, with the covariance matrix of the generator
    and a non-zero signal of [k] ones, a state whose product has unit norm
    satisfies
    [objective = beta + alpha * k * (1 - sine_error ^ 2)]; so for
    [alpha >= 0] the objective lies between [beta] and [alpha * k + beta],
    and grows exactly as the sine error shrinks. *)
Theorem hadamard_objective_sine_error (p : nat) (sparsity : Q) (alpha beta : R)
        (u v : tensor) :
  tnorm p 1 (tmul u v) = 1 ->
  (0 < active_count p sparsity)%nat ->
  let signal := from_numpy (sparse_vector p sparsity) in
  let objective := hadamard_objective p (covariance_S alpha beta signal) u v in
  exists e, sine_error p (tmul u v) signal = Some e /\
            objective = beta + alpha * INR (active_count p sparsity) * (1 - e ^ 2) /\
            (0 <= alpha ->
             beta <= objective <= alpha * INR (active_count p sparsity) + beta).
Proof.
  intros Hunit Hk signal objective.
  set (k := active_count p sparsity) in *.
  assert (HK : 0 < INR k) by (apply lt_0_INR; exact Hk).
  assert (Hss : dot p signal signal = INR k) by apply signal_dot_self.
  assert (Hrr : dot p (tmul u v) (tmul u v) = 1).
  { unfold dot. rewrite <- tnorm_sq, Hunit. ring. }
  assert (Hr : nonzero p (tmul u v)) by (apply nonzero_tnorm; lra).
  assert (Hs : nonzero p signal).
  { destruct (zero_or_nonzero p signal) as [Hz|Hn]; [|exact Hn].
    exfalso. assert (dot p signal signal = 0).
    { unfold dot. apply sum_upto_all_zero. intros i Hi. rewrite (Hz i Hi). ring. }
    lra. }
  pose proof (dot_cauchy_schwarz p (tmul u v) signal) as CS.
  rewrite Hrr, Hss in CS.
  set (a := dot p (tmul u v) signal) in *.
  assert (Hfrac : 0 <= 1 - a ^ 2 / (1 * INR k) <= 1).
  { assert (0 <= a ^ 2 / (1 * INR k) <= 1).
    { pose proof (pow2_ge_0 a). split.
      - apply Rmult_le_pos; [assumption | left; apply Rinv_0_lt_compat; lra].
      - apply (Rmult_le_reg_r (1 * INR k)); [lra|].
        unfold Rdiv. rewrite Rmult_assoc, Rinv_l by lra. lra. }
    lra. }
  exists (sqrt (1 - a ^ 2 / (1 * INR k))).
  assert (Hobj : objective =
                 beta + alpha * INR k * (1 - sqrt (1 - a ^ 2 / (1 * INR k)) ^ 2)).
  { unfold objective. rewrite hadamard_objective_covariance, Hrr.
    rewrite (dot_comm p signal (tmul u v)). fold a.
    replace (sqrt (1 - a ^ 2 / (1 * INR k)) ^ 2) with (1 - a ^ 2 / (1 * INR k)).
    - field. lra.
    - rewrite sqrt_sq_id by lra. reflexivity. }
  split; [|split].
  - rewrite (sine_error_formula p _ _ Hr Hs). fold a. rewrite Hrr, Hss. reflexivity.
  - exact Hobj.
  - intro Ha. rewrite Hobj.
    assert (He : 0 <= sqrt (1 - a ^ 2 / (1 * INR k)) ^ 2 <= 1).
    { rewrite sqrt_sq_id by lra. lra. }
    assert (0 <= alpha * INR k) by (apply Rmult_le_pos; lra).
    split; nra.
Qed.

Lemma hadamard_objective_sine_error_witness :
  exists e, sine_error 2 (tmul (fun _ _ => 1) (fun i _ => 1 - INR i))
                       (from_numpy (sparse_vector 2 (1 # 2))) = Some e /\
            hadamard_objective 2
              (covariance_S 3 5 (from_numpy (sparse_vector 2 (1 # 2))))
              (fun _ _ => 1) (fun i _ => 1 - INR i)
            = 5 + 3 * INR (active_count 2 (1 # 2)) * (1 - e ^ 2).
Proof.
  destruct (hadamard_objective_sine_error 2 (1 # 2) 3 5
              (fun _ _ => 1) (fun i _ => 1 - INR i)) as [e [H1 [H2 _]]].
  - unfold tnorm, tsum, tmul. simpl.
    replace (0 + (0 + 1 * (1 - 0) * (1 * (1 - 0))) + (0 + 1 * (1 - 1) * (1 * (1 - 1))))
      with 1 by ring.
    apply sqrt_1.
  - vm_compute. lia.
  - exists e. split; assumption.
Defined.

(** ** The gradient-descent cells *)

Lemma loss_entries (n p : nat) (X a r : tensor) :
  loss n p X a r =
  sum_upto n (fun i => sum_upto p (fun j =>
    (X i j - (0 + a i O * r j O)) * (X i j - (0 + a i O * r j O)))).
Proof. reflexivity. Qed.

Lemma square_nonneg (x : R) : 0 <= x * x.
Proof. nra. Qed.

Lemma square_zero (x : R) : x * x = 0 -> x = 0.
Proof. intro H. destruct (Rmult_integral x x H); assumption. Qed.

Lemma loss_nonneg (n p : nat) (X a r : tensor) : 0 <= loss n p X a r.
Proof.
  rewrite loss_entries. apply sum_upto_nonneg. intros i _.
  apply sum_upto_nonneg. intros j _. apply square_nonneg.
Qed.

Lemma loss_zero_iff (n p : nat) (X a r : tensor) :
  loss n p X a r = 0 <-> factorised n p X a r.
Proof.
  rewrite loss_entries. split.
  - intros H i j Hi Hj.
    assert (Hrow : sum_upto p (fun j =>
              (X i j - (0 + a i O * r j O)) * (X i j - (0 + a i O * r j O))) = 0).
    { apply (sum_upto_zero_inv n
               (fun i => sum_upto p (fun j =>
                  (X i j - (0 + a i O * r j O)) * (X i j - (0 + a i O * r j O)))));
        [|exact H | exact Hi].
      intros i' _. apply sum_upto_nonneg. intros j' _. apply square_nonneg. }
    assert (Hent : (X i j - (0 + a i O * r j O)) * (X i j - (0 + a i O * r j O)) = 0).
    { apply (sum_upto_zero_inv p
               (fun j => (X i j - (0 + a i O * r j O)) * (X i j - (0 + a i O * r j O))));
        [intros; apply square_nonneg | exact Hrow | exact Hj]. }
    apply square_zero in Hent. lra.
  - intro H. apply sum_upto_all_zero. intros i Hi.
    apply sum_upto_all_zero. intros j Hj. rewrite (H i j Hi Hj). ring.
Qed.

(** X16: each of the four objectives is non-negative, and it is zero exactly
    when [X] equals the rank-one product of the left factor ([u], or
    [X @ u]) and the recovered vector on every entry. *)
Theorem objective_zero_iff_factorised (n p : nat) (m : method) (X u v w : tensor) :
  0 <= objective_function n p m X u v w /\
  (objective_function n p m X u v w = 0 <->
   factorised n p X (left_factor p m X u) (recovered_of m v w)).
Proof.
  rewrite objective_as_loss. split; [apply loss_nonneg | apply loss_zero_iff].
Qed.

Lemma objective_zero_iff_factorised_witness :
  objective_function 2 2 Method1 (fun i j => INR i * INR j)
                     (fun i _ => INR i) (fun j _ => INR j) (fun _ _ => 1) = 0.
Proof.
  apply (proj2 (proj2 (objective_zero_iff_factorised 2 2 Method1
                         (fun i j => INR i * INR j)
                         (fun i _ => INR i) (fun j _ => INR j) (fun _ _ => 1)))).
  intros i j _ _. unfold left_factor, recovered_of, tmul. ring.
Defined.

Lemma adjoint_left_factorised (n p : nat) (X a r : tensor) (i : nat) :
  factorised n p X a r -> (i < n)%nat -> adjoint_left p X a r i O = 0.
Proof.
  intros H Hi. rewrite adjoint_left_entry, sum_upto_all_zero; [ring|].
  intros j Hj. rewrite (H i j Hi Hj). ring.
Qed.

Lemma adjoint_right_factorised (n p : nat) (X a r : tensor) (j : nat) :
  factorised n p X a r -> (j < p)%nat -> adjoint_right n X a r j O = 0.
Proof.
  intros H Hj. rewrite adjoint_right_entry, sum_upto_all_zero; [ring|].
  intros i Hi. rewrite (H i j Hi Hj). ring.
Qed.

(** At an exact factorisation all the adjoints vanish on the parameters. *)
Lemma gradient_factorised (n p : nat) (m : method) (X u v w : tensor) :
  factorised n p X (left_factor p m X u) (recovered_of m v w) ->
  let g := gradient n p m X u v w in
  (forall k, (k < u_rows n p m)%nat -> d_u g k O = 0) /\
  (forall l, (l < p)%nat -> d_v g l O = 0) /\
  (forall l, (l < p)%nat -> d_w g l O = 0).
Proof.
  intros H g.
  assert (Hl : forall i, (i < n)%nat ->
             adjoint_left p X (left_factor p m X u) (recovered_of m v w) i O = 0)
    by (intros; apply (adjoint_left_factorised n); assumption).
  assert (Hr : forall j, (j < p)%nat ->
             adjoint_right n X (left_factor p m X u) (recovered_of m v w) j O = 0)
    by (intros; apply (adjoint_right_factorised n p); assumption).
  unfold g, gradient. cbn [d_u d_v d_w].
  split; [|split].
  - intros k Hk. destruct m; simpl in Hk.
    1, 3: apply Hl; exact Hk.
    1, 2: unfold matmul; apply sum_upto_all_zero; intros i Hi;
      rewrite (Hl i Hi); ring.
  - intros l Hl'. destruct m; unfold tmul, scal; rewrite (Hr l Hl'); ring.
  - intros l Hl'. destruct m; unfold tmul, scal; rewrite (Hr l Hl'); ring.
Qed.

(** X17: an exact rank-one factorisation of [X] is a fixed point: from clear
    accumulators, a pass of any of the four loops leaves every entry of [u],
    [v] and [w] as it was. *)
Theorem gd_iteration_fixed_point (n p : nat) (m : method) (X sparse_vector : tensor)
        (step_size : R) (i : N) (st : gd_state) :
  grads_clear st ->
  factorised n p X (left_factor p m X (gd_u st)) (recovered_of m (gd_v st) (gd_w st)) ->
  let st' := gd_iteration n p m X sparse_vector step_size i st in
  (forall k, (k < u_rows n p m)%nat -> gd_u st' k O = gd_u st k O) /\
  (forall l, (l < p)%nat -> gd_v st' l O = gd_v st l O) /\
  (forall l, (l < p)%nat -> gd_w st' l O = gd_w st l O).
Proof.
  intros Hc Hf st'.
  destruct (gd_iteration_params n p m X sparse_vector step_size i st Hc)
    as [Hu [Hv Hw]].
  destruct (gradient_factorised n p m X _ _ _ Hf) as [Gu [Gv Gw]].
  split; [|split].
  - intros k Hk. unfold st'. rewrite Hu, (Gu k Hk). ring.
  - intros l Hl. unfold st'. rewrite Hv, (Gv l Hl). ring.
  - intros l Hl. unfold st'. rewrite Hw, (Gw l Hl). ring.
Qed.

Lemma gd_iteration_fixed_point_witness :
  gd_u (gd_iteration 2 2 Method1 (fun i j => INR i * INR j) (fun _ _ => 1)
                     (1 / 10000) 0
                     (gd_init 2 Method1 (fun _ _ => 1)
                              (fun i _ => INR i) (fun j _ => INR j) (fun _ _ => 1)))
       1%nat O = INR 1.
Proof.
  apply (proj1 (gd_iteration_fixed_point 2 2 Method1 (fun i j => INR i * INR j)
                  (fun _ _ => 1) (1 / 10000) 0
                  (gd_init 2 Method1 (fun _ _ => 1)
                           (fun i _ => INR i) (fun j _ => INR j) (fun _ _ => 1))
                  (conj eq_refl (conj eq_refl eq_refl))
                  ltac:(intros i j _ _; simpl; unfold tmul; ring))).
  simpl. lia.
Defined.

(** The adjoints of [v] and [w] when both are zero. *)
Lemma gradient_zero_factors (n p : nat) (m : method) (X u v w : tensor) :
  zero_col p v -> zero_col p w ->
  let g := gradient n p m X u v w in
  (forall l, (l < p)%nat -> d_v g l O = 0) /\
  (forall l, (l < p)%nat -> d_w g l O = 0).
Proof.
  intros Hv Hw g. unfold g, gradient. cbn [d_v d_w].
  split; intros l Hl; destruct m; unfold tmul, scal;
    rewrite ?(Hv l Hl), ?(Hw l Hl); ring.
Qed.

Lemma recovered_of_zero (p : nat) (m : method) (v w : tensor) :
  zero_col p v -> zero_col p w -> zero_col p (recovered_of m v w).
Proof.
  intros Hv Hw l Hl. destruct m; unfold recovered_of, tmul, tsub;
    rewrite (Hv l Hl), (Hw l Hl); ring.
Qed.

Lemma gd_iteration_sine_errors (n p : nat) (m : method) (X sv : tensor) (step : R)
      (i : N) (st : gd_state) :
  let st' := gd_iteration n p m X sv step i st in
  sine_errors st' =
    sine_errors st ++ [sine_error p (recovered_of m (gd_v st') (gd_w st')) sv] /\
  l1 st' = l1 st ++ [tnorm1 p (recovered_of m (gd_v st') (gd_w st'))].
Proof.
  unfold gd_iteration.
  destruct (N.modulo i (log_period m) =? 0)%N; split; reflexivity.
Qed.

(** X18: when [v] and [w] both start at zero they never move, in any of the
    four loops, and every sine error that the loop records is not a number. *)
Theorem gd_zero_factors_stuck (n p : nat) (m : method) (X sparse_vector : tensor)
        (step_size : R) (u v w : tensor) (epochs : N) :
  zero_col p v -> zero_col p w ->
  let st := snd (gd_loop n p m X sparse_vector step_size epochs
                         (gd_init p m sparse_vector u v w)) in
  zero_col p (gd_v st) /\ zero_col p (gd_w st) /\
  Forall (fun e => e = None) (sine_errors st).
Proof.
  intros Hv Hw.
  induction epochs as [|k IH] using N.peano_ind.
  - cbn. split; [exact Hv|]. split; [exact Hw|].
    constructor; [|constructor]. unfold sine_error.
    rewrite (cosine_error_zero_denominator p _ sparse_vector
               (or_introl (recovered_of_zero p m v w Hv Hw))).
    reflexivity.
  - cbn zeta in IH |- *. rewrite gd_loop_succ. cbn [snd].
    set (i := fst (gd_loop n p m X sparse_vector step_size k
                           (gd_init p m sparse_vector u v w))) in *.
    set (st := snd (gd_loop n p m X sparse_vector step_size k
                            (gd_init p m sparse_vector u v w))) in *.
    destruct IH as [Hv' [Hw' Hs]].
    destruct (gd_iteration_params n p m X sparse_vector step_size i st
                (gd_loop_clear n p m X sparse_vector step_size u v w k))
      as [_ [Ev Ew]].
    destruct (gradient_zero_factors n p m X (gd_u st) _ _ Hv' Hw') as [Gv Gw].
    assert (Zv : zero_col p (gd_v (gd_iteration n p m X sparse_vector step_size i st))).
    { intros l Hl. rewrite Ev, (Gv l Hl), (Hv' l Hl). ring. }
    assert (Zw : zero_col p (gd_w (gd_iteration n p m X sparse_vector step_size i st))).
    { intros l Hl. rewrite Ew, (Gw l Hl), (Hw' l Hl). ring. }
    split; [exact Zv|]. split; [exact Zw|].
    rewrite (proj1 (gd_iteration_sine_errors n p m X sparse_vector step_size i st)).
    apply Forall_app. split; [exact Hs|].
    constructor; [|constructor]. unfold sine_error.
    rewrite (cosine_error_zero_denominator p _ sparse_vector
               (or_introl (recovered_of_zero p m _ _ Zv Zw))).
    reflexivity.
Qed.

Lemma gd_zero_factors_stuck_witness :
  Forall (fun e => e = None)
         (sine_errors (snd (gd_loop 2 2 Method3 (fun _ _ => 1) (fun _ _ => 1)
                                    (1 / 10000) 3
                                    (gd_init 2 Method3 (fun _ _ => 1)
                                             (fun _ _ => 1) zeros zeros)))).
Proof.
  apply (gd_zero_factors_stuck 2 2 Method3 (fun _ _ => 1) (fun _ _ => 1)
           (1 / 10000) (fun _ _ => 1) zeros zeros 3);
    intros i _; reflexivity.
Defined.

(** ** What the cells print and record *)

Lemma N_range_succ (k : N) : N_range (N.succ k) = N_range k ++ [k].
Proof.
  unfold N_range. rewrite N2Nat.inj_succ, seq_S, map_app. simpl.
  rewrite N2Nat.id. reflexivity.
Qed.

Lemma gd_iteration_printed (n p : nat) (m : method) (X sv : tensor) (step : R)
      (i : N) (st : gd_state) :
  printed (gd_iteration n p m X sv step i st) =
  if (N.modulo i (log_period m) =? 0)%N
  then printed st ++ [(i, objective_function n p m X (gd_u st) (gd_v st) (gd_w st))]
  else printed st.
Proof.
  unfold gd_iteration.
  destruct (N.modulo i (log_period m) =? 0)%N; reflexivity.
Qed.

Lemma gd_loop_printed (n p : nat) (m : method) (X sv : tensor) (step : R)
      (u v w : tensor) (k : N) :
  let st := snd (gd_loop n p m X sv step k (gd_init p m sv u v w)) in
  map fst (printed st) =
    filter (fun i => (N.modulo i (log_period m) =? 0)%N) (N_range k) /\
  Forall (fun e =>
            let s := snd (gd_loop n p m X sv step (fst e) (gd_init p m sv u v w)) in
            snd e = objective_function n p m X (gd_u s) (gd_v s) (gd_w s))
         (printed st).
Proof.
  induction k as [|k [IHi IHv]] using N.peano_ind.
  - split; [reflexivity | constructor].
  - cbn zeta. rewrite gd_loop_succ. cbn [snd].
    rewrite gd_iteration_printed, gd_loop_index, N_range_succ, filter_app.
    cbn [filter].
    destruct (N.modulo k (log_period m) =? 0)%N.
    + rewrite map_app, IHi. split; [reflexivity|].
      apply Forall_app. split; [exact IHv|].
      constructor; [reflexivity | constructor].
    + rewrite app_nil_r. split; [exact IHi | exact IHv].
Qed.

Lemma hd_loop_printed (p : nat) (S sv : tensor) (step : R) (u v : tensor) (k : N) :
  map fst (hd_printed (snd (hd_loop p S sv step k (hd_init p sv u v)))) =
  filter (fun i => (N.modulo i 1000 =? 0)%N) (N_range k).
Proof.
  induction k as [|k IH] using N.peano_ind.
  - reflexivity.
  - rewrite hd_loop_succ. cbn [snd hd_iteration hd_printed].
    rewrite hd_loop_index, N_range_succ, filter_app. cbn [filter].
    destruct (N.modulo k 1000 =? 0)%N.
    + rewrite map_app, IH. reflexivity.
    + rewrite app_nil_r. exact IH.
Qed.

(** X19: a gradient-descent cell prints one line for every index of
    [range(epochs)] that is a multiple of its period (100 or 1000), in
    increasing order, and then one line for [epochs]; the value on the line
    of index [i] is the objective at the parameters reached after [i] passes.
    The Hadamard cell prints at the multiples of 1000 and at [epochs]. *)
Theorem printed_epochs (n p : nat) (X S sparse_vector : tensor) (step_size : R)
        (u v w : tensor) (epochs : N) :
  (forall m,
     let out := printed (gd_run n p m X sparse_vector epochs step_size u v w) in
     map fst out =
       filter (fun i => (N.modulo i (log_period m) =? 0)%N) (N_range epochs)
       ++ [epochs] /\
     Forall (fun e =>
               let s := snd (gd_loop n p m X sparse_vector step_size (fst e)
                                     (gd_init p m sparse_vector u v w)) in
               snd e = objective_function n p m X (gd_u s) (gd_v s) (gd_w s))
            out) /\
  map fst (hd_printed (hd_run p S sparse_vector epochs step_size u v)) =
    filter (fun i => (N.modulo i 1000 =? 0)%N) (N_range epochs) ++ [epochs].
Proof.
  split.
  - intros m out.
    destruct (gd_loop_printed n p m X sparse_vector step_size u v w epochs)
      as [Hi Hv].
    unfold out, gd_run, print_loss. cbn [printed].
    rewrite map_app, Hi. split; [reflexivity|].
    apply Forall_app. split; [exact Hv|].
    constructor; [reflexivity | constructor].
  - unfold hd_run. cbn [hd_printed].
    rewrite map_app, hd_loop_printed. reflexivity.
Qed.

Lemma gd_loop_trace_entry (n p : nat) (m : method) (X sv : tensor) (step : R)
      (u v w : tensor) (epochs : N) :
  forall k, (k <= epochs)%N ->
    let s := snd (gd_loop n p m X sv step k (gd_init p m sv u v w)) in
    let final := snd (gd_loop n p m X sv step epochs (gd_init p m sv u v w)) in
    nth (N.to_nat k) (sine_errors final) None =
      sine_error p (recovered_of m (gd_v s) (gd_w s)) sv /\
    nth (N.to_nat k) (l1 final) 0 = tnorm1 p (recovered_of m (gd_v s) (gd_w s)).
Proof.
  induction epochs as [|e IH] using N.peano_ind; intros k Hk.
  - assert (k = 0%N) by lia. subst k. split; reflexivity.
  - cbn zeta.
    rewrite (gd_loop_succ n p m X sv step e).
    cbn [snd].
    set (i := fst (gd_loop n p m X sv step e (gd_init p m sv u v w))).
    set (st := snd (gd_loop n p m X sv step e (gd_init p m sv u v w))) in *.
    destruct (gd_iteration_sine_errors n p m X sv step i st) as [Es El].
    destruct (gd_loop_count n p m X sv u v w e step) as [_ [Ls Ll]].
    fold st in Ls, Ll.
    rewrite Es, El.
    destruct (N.eq_dec k (N.succ e)) as [->|Hne].
    + rewrite gd_loop_succ. cbn [snd]. fold i st.
      rewrite !app_nth2 by lia.
      replace (N.to_nat (N.succ e) - length (sine_errors st))%nat with O by lia.
      replace (N.to_nat (N.succ e) - length (l1 st))%nat with O by lia.
      split; reflexivity.
    + rewrite !app_nth1 by lia. apply IH. lia.
Qed.

(** X20: the traces are append-only and indexed by the pass: entry [k] of
    the sine-error trace (and of the l1 trace) at the end of the loop is the
    metric of the parameters reached after [k] passes, for every
    [k <= epochs]. *)
Theorem gd_trace_entry (n p : nat) (m : method) (X sparse_vector : tensor)
        (step_size : R) (u v w : tensor) (epochs k : N) :
  (k <= epochs)%N ->
  let s := snd (gd_loop n p m X sparse_vector step_size k
                        (gd_init p m sparse_vector u v w)) in
  let final := gd_run n p m X sparse_vector epochs step_size u v w in
  nth (N.to_nat k) (sine_errors final) None =
    sine_error p (recovered_of m (gd_v s) (gd_w s)) sparse_vector /\
  nth (N.to_nat k) (l1 final) 0 = tnorm1 p (recovered_of m (gd_v s) (gd_w s)).
Proof.
  intros Hk s final.
  apply (gd_loop_trace_entry n p m X sparse_vector step_size u v w epochs k Hk).
Qed.

Lemma gd_trace_entry_witness :
  nth 1 (sine_errors (gd_run 1 1 Method1 (fun _ _ => 3) (fun _ _ => 1) 2 (1 / 10000)
                             (fun _ _ => 1) (fun _ _ => 1) (fun _ _ => 1))) None =
  sine_error 1
    (recovered_of Method1
       (gd_v (snd (gd_loop 1 1 Method1 (fun _ _ => 3) (fun _ _ => 1) (1 / 10000) 1
                           (gd_init 1 Method1 (fun _ _ => 1)
                                    (fun _ _ => 1) (fun _ _ => 1) (fun _ _ => 1)))))
       (gd_w (snd (gd_loop 1 1 Method1 (fun _ _ => 3) (fun _ _ => 1) (1 / 10000) 1
                           (gd_init 1 Method1 (fun _ _ => 1)
                                    (fun _ _ => 1) (fun _ _ => 1) (fun _ _ => 1))))))
    (fun _ _ => 1).
Proof.
  apply (proj1 (gd_trace_entry 1 1 Method1 (fun _ _ => 3) (fun _ _ => 1) (1 / 10000)
                  (fun _ _ => 1) (fun _ _ => 1) (fun _ _ => 1) 2 1 ltac:(lia))).
Defined.

Lemma sine_error_some_bounds (p : nat) (r s : tensor) (e : R) :
  sine_error p r s = Some e -> 0 <= e <= 1.
Proof.
  intro H.
  destruct (zero_or_nonzero p r) as [Hr|Hr].
  { unfold sine_error in H.
    rewrite (cosine_error_zero_denominator p r s (or_introl Hr)) in H. discriminate. }
  destruct (zero_or_nonzero p s) as [Hs|Hs].
  { unfold sine_error in H.
    rewrite (cosine_error_zero_denominator p r s (or_intror Hs)) in H. discriminate. }
  destruct (cosine_error_defined p r s Hr Hs) as [c [Hc [_ Hle]]].
  unfold sine_error in H. rewrite Hc in H. unfold obind, pow_half in H.
  assert (H0 : 0 <= c ^ 2) by apply pow2_ge_0.
  destruct (Rlt_dec (1 - c ^ 2) 0) as [E|_]; [lra|].
  assert (Hb : 0 <= sqrt (1 - c ^ 2) <= 1).
  { split; [apply sqrt_pos|].
    rewrite <- sqrt_1 at 2. apply sqrt_le_1_alt. lra. }
  injection H as <-. exact Hb.
Qed.

Lemma gd_loop_sine_errors_shape (n p : nat) (m : method) (X sv : tensor) (step : R)
      (u v w : tensor) (k : N) :
  Forall (fun x => exists r, x = sine_error p r sv)
         (sine_errors (snd (gd_loop n p m X sv step k (gd_init p m sv u v w)))).
Proof.
  induction k as [|k IH] using N.peano_ind.
  - constructor; [eexists; reflexivity | constructor].
  - rewrite gd_loop_succ. cbn [snd].
    rewrite (proj1 (gd_iteration_sine_errors n p m X sv step _ _)).
    apply Forall_app. split; [exact IH|].
    constructor; [eexists; reflexivity | constructor].
Qed.

Lemma hd_loop_sine_errors_shape (p : nat) (S sv : tensor) (step : R)
      (u v : tensor) (k : N) :
  Forall (fun x => x = None \/ exists r, x = sine_error p r sv)
         (hd_sine_errors (snd (hd_loop p S sv step k (hd_init p sv u v)))).
Proof.
  assert (Hm : forall uv, fst (hd_metrics p sv uv) = None \/
                          exists r, fst (hd_metrics p sv uv) = sine_error p r sv).
  { intros [[a b]|]; [right; eexists; reflexivity | left; reflexivity]. }
  induction k as [|k IH] using N.peano_ind.
  - constructor; [apply Hm | constructor].
  - rewrite hd_loop_succ. cbn [snd hd_iteration hd_sine_errors].
    apply Forall_app. split; [exact IH|].
    constructor; [apply Hm | constructor].
Qed.

(** X21: every sine error that a cell records as a number lies between 0
    and 1, in the four gradient-descent loops and in the Hadamard loop. *)
Theorem recorded_sine_errors_bounded (n p : nat) (X S sparse_vector : tensor)
        (step_size : R) (u v w : tensor) (epochs : N) (e : R) :
  (forall m,
     In (Some e) (sine_errors (gd_run n p m X sparse_vector epochs step_size u v w)) ->
     0 <= e <= 1) /\
  (In (Some e) (hd_sine_errors (hd_run p S sparse_vector epochs step_size u v)) ->
   0 <= e <= 1).
Proof.
  split.
  - intros m Hin.
    pose proof (gd_loop_sine_errors_shape n p m X sparse_vector step_size u v w epochs)
      as HF.
    rewrite Forall_forall in HF.
    destruct (HF (Some e) Hin) as [r Hr].
    apply (sine_error_some_bounds p r sparse_vector). symmetry. exact Hr.
  - intro Hin.
    pose proof (hd_loop_sine_errors_shape p S sparse_vector step_size u v epochs) as HF.
    rewrite Forall_forall in HF.
    destruct (HF (Some e) Hin) as [Hn|[r Hr]]; [discriminate|].
    apply (sine_error_some_bounds p r sparse_vector). symmetry. exact Hr.
Qed.

Lemma recorded_sine_errors_bounded_witness :
  0 <= sqrt (1 - (dot 2 (recovered_of Method1 (fun _ _ => 1) (fun i _ => INR i))
                        (fun _ _ => 1)) ^ 2
                 / (dot 2 (recovered_of Method1 (fun _ _ => 1) (fun i _ => INR i))
                          (recovered_of Method1 (fun _ _ => 1) (fun i _ => INR i))
                    * dot 2 (fun _ _ => 1) (fun _ _ => 1))) <= 1.
Proof.
  apply (proj1 (recorded_sine_errors_bounded 2 2 (fun _ _ => 1) identity (fun _ _ => 1)
                  (1 / 10000) (fun _ _ => 1) (fun _ _ => 1) (fun i _ => INR i) 0 _)
               Method1).
  left. apply sine_error_formula.
  - exists 1%nat. split; [lia | unfold recovered_of, tmul; simpl; lra].
  - exists 0%nat. split; [lia | lra].
Defined.

(** X22: raising the sparsity never removes a one: the vector for the
    smaller fraction has at most as many leading ones as the vector for the
    larger one, and each of its ones is a one of the other. *)
Theorem sparse_vector_monotone (p : nat) (s1 s2 : Q) :
  (s1 <= s2)%Q ->
  (count_ones (sparse_vector p s1) <= count_ones (sparse_vector p s2))%nat /\
  (forall i, nth i (sparse_vector p s1) 0%Q = 1%Q ->
             nth i (sparse_vector p s2) 0%Q = 1%Q).
Proof.
  intro H.
  assert (Hk : (active_count p s1 <= active_count p s2)%nat).
  { unfold active_count.
    assert (Hc : (Qceiling (Q_of_nat p * s1) <= Qceiling (Q_of_nat p * s2))%Z).
    { apply Qceiling_resp_le.
      rewrite (Qmult_comm (Q_of_nat p) s1), (Qmult_comm (Q_of_nat p) s2).
      apply Qmult_le_compat_r; [exact H | apply Q_of_nat_nonneg]. }
    lia. }
  split.
  - rewrite !sparse_vector_blocks, !count_ones_blocks. exact Hk.
  - intro i. rewrite !sparse_vector_blocks, !nth_blocks.
    destruct (Nat.ltb_spec i (active_count p s1)) as [Hlt|_]; [|discriminate].
    intros _. destruct (Nat.ltb_spec i (active_count p s2)); [reflexivity | lia].
Qed.

Lemma sparse_vector_monotone_witness :
  (count_ones (sparse_vector 10 (1 # 4)) <= count_ones (sparse_vector 10 (1 # 2)))%nat.
Proof.
  apply (proj1 (sparse_vector_monotone 10 (1 # 4) (1 # 2) ltac:(discriminate))).
Defined.
